(** * img2dmg: the conversion core of [src/App.tsx], embedded and verified

    The development follows the source file top to bottom:

    - [Names]      file-name helpers ([extFromName], [baseName],
                   [isSupportedExt], the export file name);
    - [Queue]      the job list, the queue watcher, the palette-mode reset,
                   the selection and clearing handlers;
    - [Ingest]     [enqueueFiles], [handleZip], [handleFiles];
    - [Downloads]  [downloadSelectedZip], [downloadAllZip];
    - [Quantizer]  the pixel loop of [convertToDmg], with JavaScript numbers
                   as IEEE-754 binary64 values.

    Modelling conventions.  A JavaScript string is a [string] of bytes and
    [toLowerCase] acts on the ASCII letters only, so that the model follows
    the source on names written in ASCII; what is proved about lowering
    itself is stated for such names.  A React state update is one
    atomic transition of an explicit application state.  [setToast] and
    [URL.revokeObjectURL] are recorded in that state (a log of notices, a
    set of live object URLs).  [crypto.randomUUID] is a supply of fresh
    identifiers. *)

From Stdlib Require Import ZArith Lia Bool Ascii String.
From Stdlib Require Import Floats.SpecFloat.
From stdpp Require Import base tactics option list strings gmap.

Open Scope string_scope.

(* ===================================================================== *)
(** * File names *)
(* ===================================================================== *)

Module Names.

(** ** Strings as JavaScript uses them here *)

(** [c.toLowerCase()] on one ASCII character: [A]..[Z] go to [a]..[z].
    A byte above 127 is left as it is; the source also lowers the
    non-ASCII letters such bytes encode. *)
Definition lower_ascii (c : ascii) : ascii :=
  let n := nat_of_ascii c in
  if (65 <=? n)%nat && (n <=? 90)%nat then ascii_of_nat (n + 32) else c.

(** [s.toLowerCase()], for a string written in ASCII. *)
Fixpoint toLowerCase (s : string) : string :=
  match s with
  | EmptyString => EmptyString
  | String c s' => String (lower_ascii c) (toLowerCase s')
  end.

Definition dot : ascii := "."%char.

(** [s.split(".")]: the pieces between the dots; never the empty array. *)
Fixpoint split_dot (s : string) : list string :=
  match s with
  | EmptyString => [EmptyString]
  | String c s' =>
      if Ascii.eqb c dot then EmptyString :: split_dot s'
      else match split_dot s' with
           | [] => [String c EmptyString]
           | p :: ps => String c p :: ps
           end
  end.

(** [parts.pop()]: the removed last element ([None] is [undefined]) and the
    array that is left. *)
Definition pop (parts : list string) : option string * list string :=
  (last parts, removelast parts).

(** [parts.join(".")]. *)
Fixpoint join_dot (parts : list string) : string :=
  match parts with
  | [] => EmptyString
  | [p] => p
  | p :: ps => p ++ String dot (join_dot ps)
  end.

(** ** The helpers of the source *)

(** [const extFromName = (name) => name.toLowerCase().split(".").pop() ?? ""] *)
Definition extFromName (name : string) : string :=
  match fst (pop (split_dot (toLowerCase name))) with
  | Some e => e
  | None => ""
  end.

(** [const baseName = (name) => { const parts = name.split("."); parts.pop();
    return parts.join(".") || name; }] *)
Definition baseName (name : string) : string :=
  let parts := snd (pop (split_dot name)) in
  let joined := join_dot parts in
  if String.eqb joined "" then name else joined.

Definition SUPPORTED_EXTS : list string := ["png"; "jpg"; "jpeg"; "webp"].

(** [SUPPORTED_EXTS.includes(ext)] *)
Definition isSupportedExt (ext : string) : bool :=
  existsb (String.eqb ext) SUPPORTED_EXTS.

(** [mimeForExt] *)
Definition mimeForExt (ext : string) : string :=
  if String.eqb ext "jpg" || String.eqb ext "jpeg" then "image/jpeg"
  else if String.eqb ext "webp" then "image/webp"
  else "image/png".

Inductive PaletteMode := dmg | gray.

(** [const suffix = paletteMode === "gray" ? "-gs" : "-dmg"] *)
Definition suffix (paletteMode : PaletteMode) : string :=
  match paletteMode with gray => "-gs" | dmg => "-dmg" end.

(** The template string [`${baseName(item.name)}${suffix}.png`] of
    [downloadSelectedZip], [downloadAllZip] and the per-card button. *)
Definition exportName (paletteMode : PaletteMode) (name : string) : string :=
  baseName name ++ suffix paletteMode ++ ".png".

(** ** The words of the specification, for comparison *)

(** [has_dot s]: the name contains a [.]. *)
Fixpoint has_dot (s : string) : bool :=
  match s with
  | EmptyString => false
  | String c s' => Ascii.eqb c dot || has_dot s'
  end.

(** The substring after the last [.] of the name, empty when there is no
    [.]: the extension as the specification words it. *)
Fixpoint after_last_dot (s : string) : string :=
  match s with
  | EmptyString => EmptyString
  | String c s' =>
      if has_dot s' then after_last_dot s'
      else if Ascii.eqb c dot then s' else EmptyString
  end.

Definition spec_extension (name : string) : string :=
  toLowerCase (after_last_dot name).

(** The name without its final extension: everything before the last [.],
    the whole name when there is no [.]. *)
Fixpoint before_last_dot (s : string) : string :=
  match s with
  | EmptyString => EmptyString
  | String c s' =>
      if has_dot s' then String c (before_last_dot s')
      else if Ascii.eqb c dot then EmptyString else String c (before_last_dot s')
  end.


End Names.

(* ===================================================================== *)
(** * The job list and the application state *)
(* ===================================================================== *)

Module Queue.
Import Names.

(** [type Status = "queued" | "processing" | "done" | "error"] *)
Inductive Status := queued | processing | done | error.

#[export] Instance Status_eq_dec : EqDecision Status.
Proof. solve_decision. Defined.

#[export] Instance PaletteMode_eq_dec : EqDecision PaletteMode.
Proof. solve_decision. Defined.

(** An object URL made by [URL.createObjectURL]: an opaque handle. *)
Definition Url := nat.

(** A [File]: its name, its MIME type and its bytes. *)
Record File := mkFile {
  file_name : string;
  file_type : string;
  file_bytes : list Z
}.

(** [type Item]; the optional fields are [None] when [undefined]. *)
Record Item := mkItem {
  item_id : nat;
  item_name : string;
  item_ext : string;
  item_file : File;
  item_status : Status;
  item_blobUrl : option Url;
  item_width : option Z;
  item_height : option Z;
  item_error : option string;
  item_selected : bool
}.

(** The conversion started by the queue watcher and not yet settled for
    React: the [next] of the closure, the palette it was started with, and
    whether [then]/[catch] already ran (only [finally] is left). *)
Record Pending := mkPending {
  pend_id : nat;
  pend_file : File;
  pend_palette : PaletteMode;
  pend_settled : bool
}.

(** One archive handed to [downloadBlob]: its file name and the calls
    [zip.file(name, blob)] that filled it, in order. *)
Record Download := mkDownload {
  dl_name : string;
  dl_entries : list (string * Url)
}.

(** The state of [App]: the [useState] cells the core uses, the promise in
    flight, and what the browser keeps ([setToast] calls, live object URLs,
    downloads started, the identifier and URL supplies). *)
Record App := mkApp {
  items : list Item;
  paletteMode : PaletteMode;
  busy : bool;
  conversion : option Pending;
  toasts : list string;
  live_urls : gset Url;
  next_id : nat;
  next_url : Url;
  downloads : list Download
}.

Definition init : App :=
  mkApp [] dmg false None [] ∅ 0 0 [].

(** ** Functional updates *)

Definition set_items (f : list Item → list Item) (st : App) : App :=
  mkApp (f (items st)) (paletteMode st) (busy st) (conversion st) (toasts st)
        (live_urls st) (next_id st) (next_url st) (downloads st).

Definition set_busy (b : bool) (st : App) : App :=
  mkApp (items st) (paletteMode st) b (conversion st) (toasts st)
        (live_urls st) (next_id st) (next_url st) (downloads st).

Definition set_conversion (c : option Pending) (st : App) : App :=
  mkApp (items st) (paletteMode st) (busy st) c (toasts st)
        (live_urls st) (next_id st) (next_url st) (downloads st).

Definition set_paletteMode (m : PaletteMode) (st : App) : App :=
  mkApp (items st) m (busy st) (conversion st) (toasts st)
        (live_urls st) (next_id st) (next_url st) (downloads st).

Definition set_live (f : gset Url → gset Url) (st : App) : App :=
  mkApp (items st) (paletteMode st) (busy st) (conversion st) (toasts st)
        (f (live_urls st)) (next_id st) (next_url st) (downloads st).

(** [setToast(text)]: the notice is shown; the log keeps every call. *)
Definition setToast (text : string) (st : App) : App :=
  mkApp (items st) (paletteMode st) (busy st) (conversion st)
        (toasts st ++ [text])
        (live_urls st) (next_id st) (next_url st) (downloads st).

(** [{ ...item, status: s }] *)
Definition with_status (s : Status) (it : Item) : Item :=
  mkItem (item_id it) (item_name it) (item_ext it) (item_file it) s
         (item_blobUrl it) (item_width it) (item_height it) (item_error it)
         (item_selected it).

(** [{ ...item, selected: b }] *)
Definition with_selected (b : bool) (it : Item) : Item :=
  mkItem (item_id it) (item_name it) (item_ext it) (item_file it)
         (item_status it) (item_blobUrl it) (item_width it) (item_height it)
         (item_error it) b.

(** [if (item.blobUrl) { URL.revokeObjectURL(item.blobUrl); }] *)
Definition revoke (u : option Url) (live : gset Url) : gset Url :=
  match u with
  | Some x => live ∖ {[x]}
  | None => live
  end.

(** The revocations of one pass over the list, in list order. *)
Definition revoke_all (l : list Item) (live : gset Url) : gset Url :=
  foldl (λ acc it, revoke (item_blobUrl it) acc) live l.

(** ** The palette-mode reset, [useEffect(..., [paletteMode])] *)

(** [{ ...item, status: "queued", blobUrl: undefined, width: undefined,
       height: undefined, error: undefined }] *)
Definition reset_item (it : Item) : Item :=
  mkItem (item_id it) (item_name it) (item_ext it) (item_file it) queued
         None None None None (item_selected it).

Definition paletteReset (st : App) : App :=
  set_live (revoke_all (items st)) (set_items (map reset_item) st).

(** [setPaletteMode((prev) => (prev === "dmg" ? "gray" : "dmg"))] *)
Definition flip (m : PaletteMode) : PaletteMode :=
  match m with dmg => gray | gray => dmg end.

(** The toggle button: the mode flips and the reset effect runs. *)
Definition togglePalette (st : App) : App :=
  paletteReset (set_paletteMode (flip (paletteMode st)) st).

(** ** The queue watcher, [useEffect(..., [busy, items])] *)

(** [items.find((item) => item.status === "queued")] *)
Definition next_queued (l : list Item) : option Item :=
  find (λ it, bool_decide (item_status it = queued)) l.

(** [item.id === next.id ? { ...item, status: "processing" } : item] *)
Definition mark_processing (next : nat) (it : Item) : Item :=
  if decide (item_id it = next) then with_status processing it else it.

(** The effect body up to the call of [convertToDmg]; [None] when the
    effect returns early. *)
Definition watcher (st : App) : option App :=
  if busy st then None
  else match next_queued (items st) with
       | None => None
       | Some next =>
           Some (set_conversion
                   (Some (mkPending (item_id next) (item_file next)
                                    (paletteMode st) false))
                   (set_items (map (mark_processing (item_id next)))
                              (set_busy true st)))
       end.

(** The [.then] callback, for the item of the list. *)
Definition apply_done (next : nat) (blobUrl : Url) (w h : Z) (it : Item) : Item :=
  if decide (item_id it = next)
  then mkItem (item_id it) (item_name it) (item_ext it) (item_file it) done
              (Some blobUrl) (Some w) (Some h) (item_error it)
              (item_selected it)
  else it.

(** The revocations of the [.then] callback: the old URL of the item that
    receives the result. *)
Definition revoke_matching (next : nat) (l : list Item) (live : gset Url) : gset Url :=
  revoke_all (filter (λ it, item_id it = next) l) live.

(** [.then(({ blob, width, height }) => { const blobUrl =
    URL.createObjectURL(blob); setItems(...) })] *)
Definition conversion_then (w h : Z) (st : App) : App :=
  match conversion st with
  | None => st
  | Some p =>
      let blobUrl := next_url st in
      mkApp (map (apply_done (pend_id p) blobUrl w h) (items st))
            (paletteMode st) (busy st)
            (Some (mkPending (pend_id p) (pend_file p) (pend_palette p) true))
            (toasts st)
            (revoke_matching (pend_id p) (items st) (live_urls st ∪ {[blobUrl]}))
            (next_id st) (S (next_url st)) (downloads st)
  end.

(** [item.id === next.id ? { ...item, status: "error", error: error.message }
    : item] *)
Definition apply_error (next : nat) (msg : string) (it : Item) : Item :=
  if decide (item_id it = next)
  then mkItem (item_id it) (item_name it) (item_ext it) (item_file it) error
              (item_blobUrl it) (item_width it) (item_height it) (Some msg)
              (item_selected it)
  else it.

(** The [.catch] callback. *)
Definition conversion_catch (msg : string) (st : App) : App :=
  match conversion st with
  | None => st
  | Some p =>
      set_conversion
        (Some (mkPending (pend_id p) (pend_file p) (pend_palette p) true))
        (set_items (map (apply_error (pend_id p) msg)) st)
  end.

(** [.finally(() => setBusy(false))] *)
Definition conversion_finally (st : App) : App :=
  set_conversion None (set_busy false st).

(** ** Selection and clearing *)

Definition toggleSelected (id : nat) (st : App) : App :=
  set_items (map (λ it, if decide (item_id it = id)
                        then with_selected (negb (item_selected it)) it
                        else it)) st.

Definition selectAll (st : App) : App :=
  set_items (map (λ it, if decide (item_status it = done)
                        then with_selected true it else it)) st.

Definition clearSelection (st : App) : App :=
  set_items (map (with_selected false)) st.

Definition clearAll (st : App) : App :=
  set_items (λ _, []) (set_live (revoke_all (items st)) st).

(** ** Enqueueing *)

(** The item [enqueueFiles] makes of one file, with the identifier
    [fileId()] returned for it. *)
Definition new_item (id : nat) (file : File) : Item :=
  mkItem id (file_name file) (extFromName (file_name file)) file queued
         None None None None false.

(** [files.map((file) => ({ id: fileId(), ... }))]: identifiers are drawn
    in order from the supply. *)
Fixpoint new_items (id : nat) (files : list File) : list Item :=
  match files with
  | [] => []
  | f :: fs => new_item id f :: new_items (S id) fs
  end.

(** [setItems((prev) => [...prev, ...nextItems])] *)
Definition enqueueFiles (files : list File) (st : App) : App :=
  mkApp (items st ++ new_items (next_id st) files)
        (paletteMode st) (busy st) (conversion st) (toasts st)
        (live_urls st) (next_id st + length files) (next_url st)
        (downloads st).

(** How an [async] handler ends: its promise resolves or rejects; the
    state is the one it leaves behind either way. *)
Inductive Outcome :=
  | Resolved (st : App)
  | Rejected (st : App).

Definition state_of (o : Outcome) : App :=
  match o with Resolved st | Rejected st => st end.

(** A handler signals a failure to its caller or to the user: its promise
    rejects, or it raises a notice. *)
Definition signals_failure (before : App) (o : Outcome) : Prop :=
  match o with
  | Rejected _ => True
  | Resolved after => toasts after ≠ toasts before
  end.

End Queue.

(* ===================================================================== *)
(** * Ingestion: [handleZip] and [handleFiles] *)
(* ===================================================================== *)

Module Ingest.
Import Names Queue.

(** An entry of [zip.files]. *)
Record ZipEntry := mkEntry {
  entry_name : string;
  entry_dir : bool;
  entry_data : list Z
}.

(** The three archive-level failures of the specification, and the notice
    the source raises for each. *)
Inductive ArchiveError :=
  | EmptyArchiveError
  | UnsupportedExtensionError
  | MixedExtensionError.

Definition notice (e : ArchiveError) : string :=
  match e with
  | EmptyArchiveError => "Zip is empty."
  | UnsupportedExtensionError => "Zip contains unsupported image types."
  | MixedExtensionError => "Zip must contain only one image extension type."
  end.

Definition nothing_to_convert : string :=
  "Drop images or a zip of images to convert.".

(** [new File([blob], entry.name, { type: blob.type })] with
    [blob = new Blob([data], { type: mimeForExt(firstExt) })] *)
Definition extract (firstExt : string) (entry : ZipEntry) : File :=
  mkFile (entry_name entry) (mimeForExt firstExt) (entry_data entry).

Section WithJSZip.

(** [Object.values((await JSZip.loadAsync(zipFile)).files)]: the entries of
    the archive in the order JSZip lists them; [None] when the file is not
    a readable archive and the promise rejects. *)
Variable loadAsync : File → option (list ZipEntry).

Definition handleZip (zipFile : File) (st : App) : Outcome :=
  match loadAsync zipFile with
  | None => Rejected st
  | Some files =>
      let entries := filter (λ entry, entry_dir entry = false) files in
      match entries with
      | [] => Resolved (setToast "Zip is empty." st)
      | first :: _ =>
          let firstExt := extFromName (entry_name first) in
          if negb (isSupportedExt firstExt)
          then Resolved (setToast "Zip contains unsupported image types." st)
          else
            let mixed :=
              existsb (λ entry,
                         negb (String.eqb (extFromName (entry_name entry))
                                          firstExt)) entries in
            if mixed
            then Resolved
                   (setToast "Zip must contain only one image extension type." st)
            else Resolved (enqueueFiles (map (extract firstExt) entries) st)
      end
  end.

(** [for (const zip of zips) { await handleZip(zip); }]: a rejection ends
    the loop and the handler. *)
Fixpoint handleZips (zips : list File) (st : App) : Outcome :=
  match zips with
  | [] => Resolved st
  | zip :: rest =>
      match handleZip zip st with
      | Resolved st' => handleZips rest st'
      | Rejected st' => Rejected st'
      end
  end.

Definition is_zip (file : File) : bool :=
  String.eqb (extFromName (file_name file)) "zip".

Definition is_image (file : File) : bool :=
  isSupportedExt (extFromName (file_name file)).

Definition handleFiles (files : list File) (st : App) : Outcome :=
  let zips := filter (λ file, is_zip file = true) files in
  let images := filter (λ file, is_image file = true) files in
  if bool_decide (zips = []) && bool_decide (images = [])
  then Resolved (setToast "Drop images or a zip of images to convert." st)
  else
    match handleZips zips st with
    | Rejected st' => Rejected st'
    | Resolved st' =>
        if bool_decide (images = []) then Resolved st'
        else Resolved (enqueueFiles images st')
    end.

End WithJSZip.

End Ingest.

(* ===================================================================== *)
(** * Export: the archive downloads *)
(* ===================================================================== *)

Module Downloads.
Import Names Queue.

(** [items.filter((item) => item.status === "done")] *)
Definition doneItems (st : App) : list Item :=
  filter (λ it, item_status it = done) (items st).

(** [doneItems.filter((item) => item.selected)] *)
Definition selectedItems (st : App) : list Item :=
  filter (λ it, item_selected it = true) (doneItems st).

(** The body of [for (const item of ...)]: items without a URL are
    skipped, the others are stored under their export name.  Reading the
    object URL back with [fetch] is taken to succeed. *)
Fixpoint zip_files (mode : PaletteMode) (l : list Item) : list (string * Url) :=
  match l with
  | [] => []
  | it :: rest =>
      match item_blobUrl it with
      | None => zip_files mode rest
      | Some u => (exportName mode (item_name it), u) :: zip_files mode rest
      end
  end.

Definition add_download (d : Download) (st : App) : App :=
  mkApp (items st) (paletteMode st) (busy st) (conversion st) (toasts st)
        (live_urls st) (next_id st) (next_url st) (downloads st ++ [d]).

(** The shared shape of [downloadSelectedZip] and [downloadAllZip]: the
    guard, the archive, the download. *)
Definition downloadZip (set : list Item) (grayName dmgName : string)
    (st : App) : Outcome :=
  if bool_decide (length set = 0)
  then Resolved st
  else
    let zipName := if decide (paletteMode st = gray) then grayName else dmgName in
    Resolved (add_download
                (mkDownload zipName (zip_files (paletteMode st) set)) st).

Definition downloadSelectedZip (st : App) : Outcome :=
  downloadZip (selectedItems st) "img2dmg-selected-gs.zip"
              "img2dmg-selected.zip" st.

Definition downloadAllZip (st : App) : Outcome :=
  downloadZip (doneItems st) "img2dmg-all-gs.zip" "img2dmg-all.zip" st.

End Downloads.

(* ===================================================================== *)
(** * The transition system *)
(* ===================================================================== *)

Module Transitions.
Import Names Queue Downloads.

(** ** The transitions of the application *)

Inductive step : App → App → Prop :=
  | step_enqueue files st :
      step st (enqueueFiles files st)
  | step_toast text st :
      step st (setToast text st)
  | step_pick st st' :
      watcher st = Some st' →
      step st st'
  | step_complete w h st p :
      conversion st = Some p → pend_settled p = false →
      step st (conversion_then w h st)
  | step_fail msg st p :
      conversion st = Some p → pend_settled p = false →
      step st (conversion_catch msg st)
  | step_idle st p :
      conversion st = Some p → pend_settled p = true →
      step st (conversion_finally st)
  | step_toggle st :
      step st (togglePalette st)
  | step_clear st :
      step st (clearAll st)
  | step_toggleSelected id st :
      step st (toggleSelected id st)
  | step_selectAll st :
      step st (selectAll st)
  | step_clearSelection st :
      step st (clearSelection st)
  | step_downloadSelected st :
      step st (state_of (downloadSelectedZip st))
  | step_downloadAll st :
      step st (state_of (downloadAllZip st)).

(** The states the application can be in. *)
Definition reachable (st : App) : Prop := rtc step init st.

(** [items.filter((item) => item.status === s).length] *)
Definition count_status (s : Status) (l : list Item) : nat :=
  length (filter (λ it, item_status it = s) l).

End Transitions.

(* ===================================================================== *)
(** * The quantizer: the pixel loop of [convertToDmg] *)
(* ===================================================================== *)

Module Quantizer.
Import Names.

(** ** JavaScript numbers: IEEE-754 binary64 *)

Definition number := spec_float.

Definition prec : Z := 53.
Definition emax : Z := 1024.

Definition num_add : number → number → number := SFadd prec emax.
Definition num_mul : number → number → number := SFmul prec emax.
Definition num_div : number → number → number := SFdiv prec emax.

(** The number an integer denotes (array elements, integer literals). *)
Definition of_int (z : Z) : number := binary_normalize prec emax z 0 false.

(** The literals [0.2126], [0.7152] and [0.0722]: each is read as the
    binary64 value nearest to the decimal ([literal_nearest] below). *)
Definition lit_0_2126 : number := S754_finite false 7659722246231740 (-55).
Definition lit_0_7152 : number := S754_finite false 6441948906990757 (-53).
Definition lit_0_0722 : number := S754_finite false 5202558289538397 (-56).

(** [m * 2^e] is a binary64 value nearest to [p / q]: it is in canonical
    form and at most half a unit in the last place away. *)
Definition literal_nearest (x : number) (p q : Z) : bool :=
  match x with
  | S754_finite false m e =>
      bounded prec emax m e &&
      (Z.abs (Z.pos m * q - p * 2 ^ (- e)) * 2 <=? q)%Z
  | _ => false
  end.

(** [Math.floor]. *)
Definition Math_floor (x : number) : number :=
  match x with
  | S754_finite s m e =>
      match e with
      | Zneg p =>
          if s then of_int (- ((Z.pos m + 2 ^ Z.pos p - 1) / 2 ^ Z.pos p))
          else of_int (Z.pos m / 2 ^ Z.pos p)
      | _ => x
      end
  | _ => x
  end.

(** [Math.max(a, b)] and [Math.min(a, b)] for a first argument that is a
    positive literal or [0]: [NaN] is contagious, and [+0] is larger than
    [-0]. *)
Definition Math_max (a b : number) : number :=
  match SFcompare a b with
  | None => S754_nan
  | Some Lt => b
  | Some _ => a
  end.

Definition Math_min (a b : number) : number :=
  match SFcompare a b with
  | None => S754_nan
  | Some Gt => b
  | Some _ => a
  end.

(** The array index a number is when used as a property key of an array:
    a non-negative integer value ([None] for every other number, which
    names no element). *)
Definition array_index (x : number) : option nat :=
  match x with
  | S754_zero _ => Some 0%nat
  | S754_finite false m e =>
      match e with
      | Zneg p =>
          if (Z.pos m mod 2 ^ Z.pos p =? 0)%Z
          then Some (Z.to_nat (Z.pos m / 2 ^ Z.pos p))
          else None
      | _ => Some (Z.to_nat (Z.pos m * 2 ^ e))
      end
  | _ => None
  end.

(** ** Palettes *)

Record Shade := mkShade { shade_r : Z; shade_g : Z; shade_b : Z }.

Definition DMG_PALETTE : list Shade :=
  [ mkShade 15 56 15; mkShade 48 98 48; mkShade 139 172 15;
    mkShade 155 188 15 ].

Definition GRAY_PALETTE : list Shade :=
  [ mkShade 15 15 15; mkShade 86 86 86; mkShade 170 170 170;
    mkShade 240 240 240 ].

(** [const activePalette = paletteMode === "dmg" ? DMG_PALETTE : GRAY_PALETTE] *)
Definition activePalette (paletteMode : PaletteMode) : list Shade :=
  match paletteMode with dmg => DMG_PALETTE | gray => GRAY_PALETTE end.

(** ** The loop body *)

(** [0.2126 * data[i] + 0.7152 * data[i + 1] + 0.0722 * data[i + 2]] *)
Definition lum (r g b : Z) : number :=
  num_add (num_add (num_mul lit_0_2126 (of_int r))
                   (num_mul lit_0_7152 (of_int g)))
          (num_mul lit_0_0722 (of_int b)).

(** [Math.min(3, Math.max(0, Math.floor(lum / 64)))] *)
Definition level (r g b : Z) : number :=
  Math_min (of_int 3)
           (Math_max (of_int 0) (Math_floor (num_div (lum r g b) (of_int 64)))).

(** [palette[level]]; [None] is [undefined]. *)
Definition shade_at (palette : list Shade) (lv : number) : option Shade :=
  match array_index lv with
  | Some k => palette !! k
  | None => None
  end.

(** The [for] loop over the [Uint8ClampedArray] [data], from index [i] on.
    A read past the end is [undefined]: an [undefined] alpha is not
    [=== 0], and an [undefined] channel makes the luminance [NaN], for
    which [palette[level]] is [undefined].  [None] is the [TypeError] of
    reading [.r] of [undefined]; it is also what is returned when [fuel]
    iterations do not reach the end of the array.  A write past the end
    is ignored.  The palette entries are integers of [0..255], which the
    clamped array stores as they are. *)
Fixpoint pixel_loop (fuel : nat) (palette : list Shade) (i : nat)
    (data : list Z) : option (list Z) :=
  match fuel with
  | O => if bool_decide (i < length data)%nat then None else Some data
  | S fuel' =>
      if bool_decide (i < length data)%nat then
        let alpha := data !! (i + 3)%nat in
        if bool_decide (alpha = Some 0%Z) then
          pixel_loop fuel' palette (i + 4) data
        else
          match data !! i, data !! (i + 1)%nat, data !! (i + 2)%nat with
          | Some r, Some g, Some b =>
              match shade_at palette (level r g b) with
              | Some shade =>
                  pixel_loop fuel' palette (i + 4)
                    (<[(i + 2)%nat := shade_b shade]>
                       (<[(i + 1)%nat := shade_g shade]>
                          (<[i := shade_r shade]> data)))
              | None => None
              end
          | _, _, _ => None
          end
      else Some data
  end.

(** [convertToDmg], between [getImageData] and [putImageData]: the loop
    on the pixel data of the decoded image.  Decoding the file and encoding
    the result as PNG are the browser's. *)
Definition convertToDmg (palette : list Shade) (data : list Z) : option (list Z) :=
  pixel_loop (length data) palette 0 data.

(** The pixel data of an image: four bytes per pixel. *)
Definition image_data (n : nat) (data : list Z) : Prop :=
  length data = (4 * n)%nat ∧ Forall (λ v, 0 ≤ v ≤ 255)%Z data.

(** ** The words of the specification, for comparison *)

(** [clamp(floor(L / 64), 0, 3)] for the exact luminance
    [L = 0.2126*R + 0.7152*G + 0.0722*B = (2126*R + 7152*G + 722*B) / 10000]. *)
Definition spec_band (r g b : Z) : Z :=
  Z.min 3 (Z.max 0 ((2126 * r + 7152 * g + 722 * b) / 640000)).

End Quantizer.

(* ===================================================================== *)
(** * Properties: what the theorems are stated with *)
(* ===================================================================== *)

Module Properties.
Import Names Queue Ingest Downloads Transitions Quantizer.

(** ** The job list *)

(** What the palette reset and the queue watcher never touch in an item. *)
Definition identity_fields (it : Item) : nat * string * string * File * bool :=
  (item_id it, item_name it, item_ext it, item_file it, item_selected it).

(** The result fields of an item are cleared. *)
Definition cleared (it : Item) : Prop :=
  item_blobUrl it = None ∧ item_width it = None ∧ item_height it = None
  ∧ item_error it = None.

(** What holds in every reachable state: identifiers are unique and come
    from the supply; an idle application has no conversion in flight; and
    a job is [processing] only while the conversion started for it has not
    settled. *)
Record queue_inv (st : App) : Prop := {
  inv_nodup : NoDup (map item_id (items st));
  inv_fresh : ∀ it, it ∈ items st → (item_id it < next_id st)%nat;
  inv_idle : busy st = false → conversion st = None;
  inv_processing :
    ∀ it, it ∈ items st → item_status it = processing →
          ∃ p, conversion st = Some p ∧ pend_id p = item_id it
               ∧ pend_settled p = false
}.

(** ** Ingestion *)

(** A job as [enqueueFiles] makes it from an accepted image. *)
Definition fresh_image_job (it : Item) : Prop :=
  item_status it = queued ∧ isSupportedExt (item_ext it) = true
  ∧ item_selected it = false ∧ cleared it.

(** One of the three archive notices. *)
Definition archive_notice (text : string) : Prop :=
  ∃ e : ArchiveError, text = notice e.

(** [st'] is [st] with image jobs appended and archive notices raised,
    and nothing else of the list or of the notices changed. *)
Definition ingested (st st' : App) : Prop :=
  ∃ added raised,
    (items st' = items st ++ added)%list ∧ Forall fresh_image_job added
    ∧ (toasts st' = toasts st ++ raised)%list ∧ Forall archive_notice raised.

(** ** Luminance bands *)

Section Bands.
Local Open Scope Z_scope.

(** The exact luminance of a pixel, times [10000]. *)
Definition lum10000 (r g b : Z) : Z := 2126 * r + 7152 * g + 722 * b.

(** The byte triples whose exact luminance is [0], [64], [128] or [192]. *)
Definition boundary_triples : list (Z * Z * Z) :=
  [
    (0, 0, 0); (12, 175, 4); (15, 152, 223); (16, 71, 136); (28, 246, 140);
    (29, 165, 53); (33, 61, 185); (45, 236, 189); (46, 155, 102);
    (47, 74, 15); (50, 51, 234); (59, 249, 19); (62, 226, 238);
    (63, 145, 151); (64, 64, 64); (76, 239, 68); (80, 135, 200);
    (81, 54, 113); (93, 229, 117); (94, 148, 30); (97, 125, 249);
    (98, 44, 162); (110, 219, 166); (111, 138, 79); (115, 34, 211);
    (127, 209, 215); (128, 128, 128); (129, 47, 41); (141, 222, 45);
    (145, 118, 177); (146, 37, 90); (158, 212, 94); (159, 131, 7);
    (162, 108, 226); (163, 27, 139); (175, 202, 143); (176, 121, 56);
    (180, 17, 188); (192, 192, 192); (193, 111, 105); (194, 30, 18);
    (197, 7, 237); (206, 205, 22); (209, 182, 241); (210, 101, 154);
    (211, 20, 67); (223, 195, 71); (227, 91, 203); (228, 10, 116);
    (240, 185, 120); (241, 104, 33); (244, 81, 252); (245, 0, 165) ].

(** Those of them whose luminance, as the source computes it, comes out
    just below the boundary ([63.99999999999999] for [64], and so on): the
    thirteen colours the code puts one band lower than exact arithmetic
    would. *)
Definition lowered_triples : list (Z * Z * Z) :=
  [
    (12, 175, 4); (15, 152, 223); (33, 61, 185); (59, 249, 19);
    (81, 54, 113); (110, 219, 166); (141, 222, 45); (145, 118, 177);
    (146, 37, 90); (159, 131, 7); (162, 108, 226); (176, 121, 56);
    (240, 185, 120) ].

Definition triple_eqb (s t : Z * Z * Z) : bool :=
  let '(r, g, b) := s in let '(r', g', b') := t in
  (r =? r') && (g =? g') && (b =? b').

Definition rounded_down (r g b : Z) : bool :=
  existsb (triple_eqb (r, g, b)) lowered_triples.

(** The band the code assigns: the band of the specification, one lower
    for the thirteen colours of [lowered_triples]. *)
Definition code_band (r g b : Z) : Z :=
  if rounded_down r g b then spec_band r g b - 1 else spec_band r g b.

Definition same_index (o : option nat) (k : Z) : bool :=
  match o with
  | Some i => Nat.eqb i (Z.to_nat k)
  | None => false
  end.

(** For [r] and [g] and a boundary [640000 * k], the one [b] that reaches
    the boundary, if it is a byte, is listed. *)
Definition boundary_listed (r g k : Z) : bool :=
  let rest := 640000 * k - 2126 * r - 7152 * g in
  if 0 <=? rest then
    if rest <=? 722 * 255 then
      if rest mod 722 =? 0
      then existsb (triple_eqb (r, g, rest / 722)) boundary_triples
      else true
    else true
  else true.

(** The value of a non-negative number, in units of [2^-64]. *)
Definition scaled (x : number) : Z :=
  match x with
  | S754_finite false m e => Z.pos m * 2 ^ (e + 64)
  | _ => 0
  end.

(** [+0], or a positive normal number of the size of a luminance. *)
Definition small (x : number) : Prop :=
  x = S754_zero false
  ∨ ∃ m e, x = S754_finite false m e ∧ digits2_pos m = 53%positive
           ∧ -64 ≤ e ≤ -44.

(** The values a [Uint8ClampedArray] holds. *)
Definition bytes : list Z := map Z.of_nat (seq 0 256).

(** The product [c * r] of a coefficient, written [K / 10000] in the
    source, and a byte is a small number within [2^-44] of [K * r / 10000]. *)
Definition product_ok (c : number) (K r : Z) : bool :=
  match num_mul c (of_int r) with
  | S754_zero false => r =? 0
  | S754_finite false m e =>
      Pos.eqb (digits2_pos m) 53 && (-64 <=? e) && (e <=? -44)
      && (Z.abs (10000 * (Z.pos m * 2 ^ (e + 64)) - K * r * 2 ^ 64)
          <=? 10000 * 2 ^ 20)
  | _ => false
  end.

End Bands.

(** ** Pixels *)

(** Pixel [k] of an image: the bytes at [4k .. 4k+3]. *)
Definition pixel (data : list Z) (k : nat) : option (Z * Z * Z * Z) :=
  match data !! (4 * k)%nat, data !! (4 * k + 1)%nat,
        data !! (4 * k + 2)%nat, data !! (4 * k + 3)%nat with
  | Some r, Some g, Some b, Some a => Some (r, g, b, a)
  | _, _, _, _ => None
  end.

(** What the loop body makes of one pixel. *)
Definition recolored (palette : list Shade) (p q : Z * Z * Z * Z) : Prop :=
  let '(r, g, b, a) := p in
  if decide (a = 0%Z) then q = p
  else ∃ shade, palette !! Z.to_nat (code_band r g b) = Some shade
                ∧ q = (shade_r shade, shade_g shade, shade_b shade, a).

(** The three writes of the loop body. *)
Definition paint (j : nat) (shade : Shade) (data : list Z) : list Z :=
  <[(4 * j + 2)%nat := shade_b shade]>
    (<[(4 * j + 1)%nat := shade_g shade]>
       (<[(4 * j)%nat := shade_r shade]> data)).

End Properties.

(* ===================================================================== *)
(** * Lifecycle: more of [App], and what its states keep *)
(* ===================================================================== *)

Module Lifecycle.
Import Names Queue Ingest Downloads Transitions Quantizer Properties.

(** ** Derived values of a render *)

(** [const queuedCount = items.filter((item) => item.status === "queued").length] *)
Definition queuedCount (st : App) : nat := count_status queued (items st).

(** [const stats = useMemo(() => ({ total, done, selected }), ...)] *)
Record Stats := mkStats {
  stats_total : nat;
  stats_done : nat;
  stats_selected : nat
}.

Definition stats (st : App) : Stats :=
  mkStats (length (items st)) (length (doneItems st))
          (length (selectedItems st)).

(** ** What an item's fields are, by status *)

(** The data model of a job: a queued or processing job has no result
    and no message; a done job has its URL and its size and no message; a
    failed job has its message and no result. *)
Definition fields_ok (it : Item) : Prop :=
  match item_status it with
  | queued | processing => cleared it
  | done =>
      is_Some (item_blobUrl it) ∧ is_Some (item_width it)
      ∧ is_Some (item_height it) ∧ item_error it = None
  | error =>
      item_blobUrl it = None ∧ item_width it = None ∧ item_height it = None
      ∧ is_Some (item_error it)
  end.

(** What every reachable state keeps, beyond [queue_inv]. *)
Record lifecycle_inv (st : App) : Prop := {
  lc_fields : ∀ it, it ∈ items st → fields_ok it;
  lc_pending :
    ∀ p it, conversion st = Some p → pend_settled p = false →
            it ∈ items st → item_id it = pend_id p →
            item_status it = queued ∨ item_status it = processing;
  lc_pending_fresh :
    ∀ p, conversion st = Some p → (pend_id p < next_id st)%nat;
  lc_busy : conversion st = None → busy st = false;
  lc_urls_live :
    ∀ it u, it ∈ items st → item_blobUrl it = Some u → u ∈ live_urls st;
  lc_urls_fresh : ∀ u, u ∈ live_urls st → (u < next_url st)%nat;
  lc_urls_own :
    ∀ it1 it2 u, it1 ∈ items st → it2 ∈ items st →
                 item_blobUrl it1 = Some u → item_blobUrl it2 = Some u →
                 item_id it1 = item_id it2
}.

(** The transitions the application takes on its own, with no user and no
    failure: the watcher picks, the conversion completes, the processor
    goes idle. *)
Inductive runs : App → App → Prop :=
  | runs_pick st st' :
      watcher st = Some st' → runs st st'
  | runs_complete w h st p :
      conversion st = Some p → pend_settled p = false →
      runs st (conversion_then w h st)
  | runs_idle st p :
      conversion st = Some p → pend_settled p = true →
      runs st (conversion_finally st).

(** Every job has settled. *)
Definition all_settled (st : App) : Prop :=
  ∀ it, it ∈ items st → item_status it = done ∨ item_status it = error.

(** An object URL that was created, is live, and is held by no job. *)
Definition orphan (u : Url) (st : App) : Prop :=
  u ∈ live_urls st ∧ (u < next_url st)%nat
  ∧ ∀ it, it ∈ items st → item_blobUrl it ≠ Some u.

(** ** Names written in ASCII *)

Definition is_ascii (c : ascii) : bool := (nat_of_ascii c <? 128)%nat.

(** Every character of the name is an ASCII character: the names on which
    [Names.toLowerCase] is [String.prototype.toLowerCase]. *)
Definition ascii_name (s : string) : bool :=
  forallb is_ascii (list_ascii_of_string s).

End Lifecycle.

(* ===================================================================== *)
(** * Sample inputs *)
(* ===================================================================== *)

Module Samples.
Import Names Queue Ingest Downloads Transitions Quantizer Properties.

Definition photo : File := mkFile "photo.JPG" "image/jpeg" [255; 216; 255]%Z.
Definition notes : File := mkFile "notes.txt" "text/plain" [104; 105]%Z.
Definition batch_zip : File := mkFile "batch.zip" "application/zip" [80; 75]%Z.

(** A stand-in for JSZip on the three sample archives. *)
Definition sample_loadAsync (file : File) : option (list ZipEntry) :=
  if String.eqb (file_name file) "batch.zip" then
    Some [mkEntry "img/" true []; mkEntry "img/a.png" false [1]%Z;
          mkEntry "img/b.png" false [2]%Z]
  else if String.eqb (file_name file) "mixed.zip" then
    Some [mkEntry "a.png" false [1]%Z; mkEntry "b.jpg" false [2]%Z]
  else if String.eqb (file_name file) "empty.zip" then
    Some [mkEntry "img/" true []]
  else None.

(** [photo.JPG] dropped on a fresh application, picked by the watcher,
    converted to a 2 x 2 image, and then selected. *)
Definition st_queued : App := enqueueFiles [photo] init.
Definition st_processing : App := default st_queued (watcher st_queued).
Definition st_done : App := conversion_finally (conversion_then 2 2 st_processing).
Definition st_selected : App := toggleSelected 0 st_done.

(** A 3 x 1 image: a grey pixel, a transparent pixel, a translucent white
    pixel. *)
Definition three_pixels : list Z :=
  [64; 64; 64; 255;  1; 2; 3; 0;  255; 255; 255; 7]%Z.

End Samples.

Import Names Queue Ingest Downloads Transitions Quantizer Properties Samples.

(* ===================================================================== *)
(** * Facts about file names *)
(* ===================================================================== *)

Section NameFacts.

Lemma lower_ascii_dot c : Ascii.eqb (lower_ascii c) dot = Ascii.eqb c dot.
Proof.
  destruct c as [[] [] [] [] [] [] [] []]; reflexivity.
Qed.

Lemma has_dot_toLowerCase s : has_dot (toLowerCase s) = has_dot s.
Proof.
  induction s as [|c s IH]; simpl; [reflexivity|].
  by rewrite lower_ascii_dot, IH.
Qed.

Lemma after_last_dot_toLowerCase s :
  after_last_dot (toLowerCase s) = toLowerCase (after_last_dot s).
Proof.
  induction s as [|c s IH]; simpl; [reflexivity|].
  rewrite has_dot_toLowerCase, lower_ascii_dot, IH.
  destruct (has_dot s), (Ascii.eqb c dot); reflexivity.
Qed.

Lemma split_dot_no_dot s : has_dot s = false → split_dot s = [s].
Proof.
  induction s as [|c s IH]; simpl; [reflexivity|].
  intros [Hc Hs]%orb_false_elim. rewrite Hc, (IH Hs). reflexivity.
Qed.

Lemma split_dot_has_dot s :
  has_dot s = true → ∃ p q ps, split_dot s = p :: q :: ps.
Proof.
  induction s as [|c s IH]; simpl; [discriminate|].
  destruct (Ascii.eqb c dot); simpl.
  - intros _. destruct (has_dot s) eqn:Hs.
    + destruct (IH eq_refl) as (p & q & ps & ->). eauto.
    + rewrite (split_dot_no_dot s Hs). eauto.
  - intros Hs. destruct (IH Hs) as (p & q & ps & ->). eauto.
Qed.

Lemma last_split_dot s :
  last (split_dot s) = Some (if has_dot s then after_last_dot s else s).
Proof.
  induction s as [|c s IH]; simpl; [reflexivity|].
  destruct (Ascii.eqb c dot) eqn:Hc; simpl.
  - destruct (has_dot s) eqn:Hs.
    + destruct (split_dot_has_dot s Hs) as (p & q & ps & Heq).
      rewrite Heq in IH |- *. exact IH.
    + rewrite (split_dot_no_dot s Hs). reflexivity.
  - destruct (has_dot s) eqn:Hs.
    + destruct (split_dot_has_dot s Hs) as (p & q & ps & Heq).
      rewrite Heq in IH |- *. exact IH.
    + rewrite (split_dot_no_dot s Hs). reflexivity.
Qed.

Lemma before_last_dot_no_dot s : has_dot s = false → before_last_dot s = s.
Proof.
  induction s as [|c s IH]; simpl; [reflexivity|].
  intros [Hc Hs]%orb_false_elim. rewrite Hc, Hs, (IH Hs). reflexivity.
Qed.

Lemma join_dot_cons_char c p ps :
  join_dot (String c p :: ps) = String c (join_dot (p :: ps)).
Proof. destruct ps; reflexivity. Qed.

Lemma join_removelast_split_dot s :
  join_dot (removelast (split_dot s))
  = if has_dot s then before_last_dot s else "".
Proof.
  induction s as [|c s IH]; simpl; [reflexivity|].
  destruct (Ascii.eqb c dot) eqn:Hc; simpl.
  - destruct (has_dot s) eqn:Hs.
    + destruct (split_dot_has_dot s Hs) as (p & q & ps & Heq).
      rewrite Heq in IH |- *.
      change (removelast ("" :: p :: q :: ps))
        with ("" :: removelast (p :: q :: ps)).
      change (removelast (p :: q :: ps)) with (p :: removelast (q :: ps)) in *.
      change (join_dot ("" :: p :: removelast (q :: ps)))
        with (String dot (join_dot (p :: removelast (q :: ps)))).
      apply Ascii.eqb_eq in Hc. subst c. by rewrite IH.
    + rewrite (split_dot_no_dot s Hs). reflexivity.
  - destruct (has_dot s) eqn:Hs.
    + destruct (split_dot_has_dot s Hs) as (p & q & ps & Heq).
      rewrite Heq in IH |- *.
      change (removelast (String c p :: q :: ps))
        with (String c p :: removelast (q :: ps)).
      change (removelast (p :: q :: ps)) with (p :: removelast (q :: ps)) in IH.
      by rewrite join_dot_cons_char, IH.
    + rewrite (split_dot_no_dot s Hs). reflexivity.
Qed.

Lemma extFromName_cases name :
  extFromName name
  = if has_dot name then spec_extension name else toLowerCase name.
Proof.
  unfold extFromName, pop, spec_extension; simpl.
  rewrite last_split_dot, has_dot_toLowerCase, after_last_dot_toLowerCase.
  destruct (has_dot name); reflexivity.
Qed.

Lemma baseName_cases name :
  baseName name
  = if String.eqb (before_last_dot name) "" then name
    else before_last_dot name.
Proof.
  unfold baseName, pop; simpl.
  rewrite join_removelast_split_dot.
  destruct (has_dot name) eqn:Hd; [reflexivity|].
  rewrite (before_last_dot_no_dot name Hd). simpl.
  destruct (String.eqb name ""); reflexivity.
Qed.

End NameFacts.

(** C5 (the code as it is).  The extension [extFromName] computes is the
    lowercased substring after the last [.] when the name contains a [.];
    for a name without any [.] it is the whole lowercased name, not the
    empty string: the default [?? ""] is never taken, since [split] never
    returns an empty array.  A file called [README] has the extension
    [readme], and a file called [png] counts as a supported image. *)
Theorem extFromName_last_segment :
  (∀ name, extFromName name
           = if has_dot name then spec_extension name else toLowerCase name)
  ∧ extFromName "photo.JPG" = "jpg"
  ∧ extFromName "archive.tar.GZ" = "gz"
  ∧ extFromName "README" = "readme"
  ∧ spec_extension "README" = ""
  ∧ isSupportedExt (extFromName "png") = true.
Proof.
  split; [exact extFromName_cases|]. repeat split; reflexivity.
Qed.




(* ===================================================================== *)
(** * Facts about the job list *)
(* ===================================================================== *)

Section QueueFacts.

Implicit Types (st : App) (it : Item) (l : list Item).

Lemma identity_reset_item it : identity_fields (reset_item it) = identity_fields it.
Proof. reflexivity. Qed.

Lemma identity_mark_processing k it :
  identity_fields (mark_processing k it) = identity_fields it.
Proof. unfold mark_processing. case_decide; reflexivity. Qed.

Lemma identity_apply_done k u w h it :
  identity_fields (apply_done k u w h it) = identity_fields it.
Proof. unfold apply_done. case_decide; reflexivity. Qed.

Lemma identity_apply_error k msg it :
  identity_fields (apply_error k msg it) = identity_fields it.
Proof. unfold apply_error. case_decide; reflexivity. Qed.

Lemma map_identity_fields (f : Item → Item) l :
  (∀ it, identity_fields (f it) = identity_fields it) →
  map identity_fields (map f l) = map identity_fields l.
Proof.
  intros Hf. rewrite map_map. apply map_ext. exact Hf.
Qed.

Lemma map_item_id (f : Item → Item) l :
  (∀ it, item_id (f it) = item_id it) →
  map item_id (map f l) = map item_id l.
Proof.
  intros Hf. rewrite map_map. apply map_ext. exact Hf.
Qed.

(** Revoking along a list removes exactly the URLs the list holds. *)
Lemma elem_of_revoke_all l (live : gset Url) u :
  u ∈ revoke_all l live
  ↔ u ∈ live ∧ ∀ it, it ∈ l → item_blobUrl it ≠ Some u.
Proof.
  unfold revoke_all. revert live.
  induction l as [|it l IH]; intros live; simpl.
  - split; [intros H; split; [done|] | tauto].
    intros it Hit. inversion Hit.
  - rewrite IH. split.
    + intros [Hu Hl]. destruct (item_blobUrl it) as [x|] eqn:Hx; simpl in Hu.
      * apply elem_of_difference in Hu as [Hu Hne]. split; [done|].
        intros it' [->|Hin]%elem_of_cons; [|by apply Hl].
        rewrite Hx. intros [= ->]. apply Hne. by apply elem_of_singleton.
      * split; [done|].
        intros it' [->|Hin]%elem_of_cons; [by rewrite Hx | by apply Hl].
    + intros [Hu Hl]. split.
      * destruct (item_blobUrl it) as [x|] eqn:Hx; simpl; [|done].
        apply elem_of_difference. split; [done|].
        intros ->%elem_of_singleton.
        apply (Hl it); [by left | done].
      * intros it' Hin. apply Hl. by right.
Qed.

End QueueFacts.

(** C6.  Toggling the palette mode flips the mode, keeps the list as long
    as it was, and leaves every job, whatever its status was, queued with
    its result fields (object URL, width, height, error message) cleared;
    every object URL a job held before is revoked by the same update, so
    none of them is live afterwards. *)
Theorem togglePalette_requeues_all st :
  paletteMode (togglePalette st) = flip (paletteMode st)
  ∧ length (items (togglePalette st)) = length (items st)
  ∧ (∀ it, it ∈ items (togglePalette st) →
       item_status it = queued ∧ cleared it)
  ∧ (∀ it u, it ∈ items st → item_blobUrl it = Some u →
       u ∉ live_urls (togglePalette st)).
Proof.
  split; [reflexivity|]. split; [apply length_map|]. split.
  - intros it Hit. simpl in Hit.
    apply list_elem_of_fmap in Hit as (it0 & -> & _).
    repeat split.
  - intros it u Hit Hu Hlive. simpl in Hlive.
    apply elem_of_revoke_all in Hlive as [_ Hl].
    by apply (Hl it).
Qed.

(** C9.  The palette reset changes nothing of a job but its status and its
    result fields: position by position, the identifier, the source name,
    the extension, the source file and the selected flag are the ones of
    before.  The queue watcher and the three callbacks of the conversion
    keep them too, so a job selected while done is still selected after the
    reset and after it has been converted again. *)
Theorem reset_keeps_identity_and_selection st :
  map identity_fields (items (togglePalette st)) = map identity_fields (items st)
  ∧ map identity_fields (items (paletteReset st)) = map identity_fields (items st)
  ∧ (∀ st', watcher st = Some st' →
       map identity_fields (items st') = map identity_fields (items st))
  ∧ (∀ w h, map identity_fields (items (conversion_then w h st))
            = map identity_fields (items st))
  ∧ (∀ msg, map identity_fields (items (conversion_catch msg st))
            = map identity_fields (items st))
  ∧ map identity_fields (items (conversion_finally st))
    = map identity_fields (items st).
Proof.
  repeat split.
  - apply map_identity_fields, identity_reset_item.
  - apply map_identity_fields, identity_reset_item.
  - intros st'. unfold watcher. destruct (busy st); [discriminate|].
    destruct (next_queued (items st)) as [next|]; [|discriminate].
    intros [= <-]. apply map_identity_fields, identity_mark_processing.
  - intros w h. unfold conversion_then.
    destruct (conversion st) as [p|]; [|reflexivity].
    apply map_identity_fields, identity_apply_done.
  - intros msg. unfold conversion_catch.
    destruct (conversion st) as [p|]; [|reflexivity].
    apply map_identity_fields, identity_apply_error.
Qed.

(* ===================================================================== *)
(** * The queue invariant *)
(* ===================================================================== *)

Section Invariant.

Implicit Types (st : App) (it : Item) (l : list Item).

Lemma new_items_ids n files :
  map item_id (new_items n files) = seq n (length files).
Proof.
  revert n. induction files as [|f fs IH]; intros n; simpl; [reflexivity|].
  by rewrite IH.
Qed.

Lemma new_items_queued n files it :
  it ∈ new_items n files → item_status it = queued.
Proof.
  revert n. induction files as [|f fs IH]; intros n; simpl.
  - intros H. inversion H.
  - intros [->|H]%elem_of_cons; [reflexivity|]. by apply (IH (S n)).
Qed.

Lemma elem_of_map_item (f : Item → Item) l it :
  it ∈ map f l → ∃ it0, it = f it0 ∧ it0 ∈ l.
Proof. intros H. by apply list_elem_of_fmap in H. Qed.

(** Among items with pairwise distinct identifiers, those that are
    [processing] and all carry one identifier are at most one. *)
Lemma count_processing_le_1 l k :
  NoDup (map item_id l) →
  (∀ it, it ∈ l → item_status it = processing → item_id it = k) →
  (count_status processing l ≤ 1)%nat.
Proof.
  unfold count_status. induction l as [|it l IH]; simpl; [lia|].
  intros Hnd Hall. apply NoDup_cons in Hnd as [Hnotin Hnd].
  specialize (IH Hnd (λ it' Hin, Hall it' (list_elem_of_further _ _ _ Hin))).
  rewrite filter_cons. case_decide as Hst; simpl; [|exact IH].
  destruct (filter (λ it0, item_status it0 = processing) l) as [|it' rest] eqn:Hf;
    [simpl; lia|].
  assert (it' ∈ filter (λ it0, item_status it0 = processing) l) as Hin'
    by (rewrite Hf; left).
  apply list_elem_of_filter in Hin' as [Hst' Hin].
  exfalso. apply Hnotin. apply list_elem_of_fmap. exists it'. split; [|done].
  rewrite (Hall it (list_elem_of_here _ _) Hst).
  symmetry. apply Hall; [by apply list_elem_of_further | done].
Qed.

Lemma queue_inv_processing_le_1 st :
  queue_inv st → (count_status processing (items st) ≤ 1)%nat.
Proof.
  intros [Hnd _ _ Hproc].
  destruct (conversion st) as [p|] eqn:Hc.
  - apply (count_processing_le_1 _ (pend_id p)); [done|].
    intros it Hin Hst. destruct (Hproc it Hin Hst) as (p' & [= <-] & Hid & _).
    by symmetry.
  - apply (count_processing_le_1 _ 0%nat); [done|].
    intros it Hin Hst. by destruct (Hproc it Hin Hst) as (p' & [=] & _).
Qed.

Lemma next_queued_Some l next :
  next_queued l = Some next → next ∈ l ∧ item_status next = queued.
Proof.
  unfold next_queued. intros H. apply find_some in H as [Hin Hq].
  split; [by apply list_elem_of_In | by apply bool_decide_eq_true in Hq].
Qed.

Lemma queue_inv_init : queue_inv init.
Proof.
  split; simpl.
  - constructor.
  - intros it H. inversion H.
  - reflexivity.
  - intros it H. inversion H.
Qed.

Lemma queue_inv_downloadZip set gn dn st :
  queue_inv st → queue_inv (state_of (downloadZip set gn dn st)).
Proof.
  intros [H1 H2 H3 H4]. unfold downloadZip.
  case_bool_decide; simpl; by split.
Qed.

Lemma queue_inv_step st st' : queue_inv st → step st st' → queue_inv st'.
Proof.
  intros [Hnd Hfresh Hidle Hproc] Hstep.
  destruct Hstep as
    [files st|text st|st st' Hw|w h st p Hc Hs|msg st p Hc Hs|st p Hc Hs
    |st|st|id st|st|st|st|st].
  - (* enqueueFiles *)
    split; simpl.
    + rewrite map_app, new_items_ids. apply NoDup_app. split; [done|].
      split; [|apply NoDup_seq].
      intros k Hk Hk'. apply list_elem_of_fmap in Hk as (it & -> & Hit).
      apply list_elem_of_In, in_seq in Hk'. specialize (Hfresh it Hit). lia.
    + intros it [Hit|Hit]%elem_of_app.
      * specialize (Hfresh it Hit). lia.
      * assert (item_id it ∈ map item_id (new_items (next_id st) files)) as Hk.
        { apply list_elem_of_fmap. by exists it. }
        rewrite new_items_ids in Hk. apply list_elem_of_In, in_seq in Hk. lia.
    + done.
    + intros it [Hit|Hit]%elem_of_app Hst; [by apply Hproc|].
      by rewrite (new_items_queued _ _ _ Hit) in Hst.
  - (* setToast *)
    by split.
  - (* the watcher picks *)
    unfold watcher in Hw. destruct (busy st) eqn:Hb; [discriminate|].
    destruct (next_queued (items st)) as [next|] eqn:Hn; [|discriminate].
    injection Hw as <-. specialize (Hidle eq_refl).
    split; simpl.
    + rewrite map_item_id; [done|].
      intros it. unfold mark_processing. by case_decide.
    + intros it (it0 & -> & Hit0)%elem_of_map_item.
      unfold mark_processing. case_decide; simpl; by apply Hfresh.
    + discriminate.
    + intros it (it0 & -> & Hit0)%elem_of_map_item Hst.
      unfold mark_processing in *. case_decide as Hid; simpl in *.
      * eexists. split; [reflexivity|]. simpl. split; [by symmetry|done].
      * destruct (Hproc it0 Hit0 Hst) as (p & Hp & _). congruence.
  - (* .then *)
    unfold conversion_then. rewrite Hc.
    split; simpl.
    + rewrite map_item_id; [done|].
      intros it. unfold apply_done. by case_decide.
    + intros it (it0 & -> & Hit0)%elem_of_map_item.
      unfold apply_done. case_decide; simpl; by apply Hfresh.
    + intros Hb. specialize (Hidle Hb). congruence.
    + intros it (it0 & -> & Hit0)%elem_of_map_item Hst.
      unfold apply_done in *. case_decide as Hid; simpl in *; [discriminate|].
      destruct (Hproc it0 Hit0 Hst) as (p' & Hp' & Hid' & _). congruence.
  - (* .catch *)
    unfold conversion_catch. rewrite Hc.
    split; simpl.
    + rewrite map_item_id; [done|].
      intros it. unfold apply_error. by case_decide.
    + intros it (it0 & -> & Hit0)%elem_of_map_item.
      unfold apply_error. case_decide; simpl; by apply Hfresh.
    + intros Hb. specialize (Hidle Hb). congruence.
    + intros it (it0 & -> & Hit0)%elem_of_map_item Hst.
      unfold apply_error in *. case_decide as Hid; simpl in *; [discriminate|].
      destruct (Hproc it0 Hit0 Hst) as (p' & Hp' & Hid' & _). congruence.
  - (* .finally *)
    split; simpl; [done|done|done|].
    intros it Hit Hst. destruct (Hproc it Hit Hst) as (p' & Hp' & _ & Hs').
    congruence.
  - (* the palette toggle *)
    split; simpl.
    + by rewrite map_item_id.
    + intros it (it0 & -> & Hit0)%elem_of_map_item. simpl. by apply Hfresh.
    + done.
    + by intros it (it0 & -> & Hit0)%elem_of_map_item Hst.
  - (* clearAll *)
    split; simpl.
    + constructor.
    + intros it H. inversion H.
    + done.
    + intros it H. inversion H.
  - (* toggleSelected *)
    split; simpl.
    + rewrite map_item_id; [done|]. intros it. by case_decide.
    + intros it (it0 & -> & Hit0)%elem_of_map_item.
      case_decide; simpl; by apply Hfresh.
    + done.
    + intros it (it0 & -> & Hit0)%elem_of_map_item Hst.
      case_decide; simpl in *; by apply Hproc.
  - (* selectAll *)
    split; simpl.
    + rewrite map_item_id; [done|]. intros it. by case_decide.
    + intros it (it0 & -> & Hit0)%elem_of_map_item.
      case_decide; simpl; by apply Hfresh.
    + done.
    + intros it (it0 & -> & Hit0)%elem_of_map_item Hst.
      case_decide; simpl in *; by apply Hproc.
  - (* clearSelection *)
    split; simpl.
    + by rewrite map_item_id.
    + intros it (it0 & -> & Hit0)%elem_of_map_item. simpl. by apply Hfresh.
    + done.
    + intros it (it0 & -> & Hit0)%elem_of_map_item Hst. simpl in *. by apply Hproc.
  - by apply queue_inv_downloadZip.
  - by apply queue_inv_downloadZip.
Qed.

Lemma queue_inv_reachable st : reachable st → queue_inv st.
Proof.
  unfold reachable. revert st.
  refine (rtc_ind_r (R := step) queue_inv init queue_inv_init _).
  intros y z _ Hyz IH. by apply (queue_inv_step y z).
Qed.

End Invariant.

(** C3.  In every state the application can reach by enqueueing files,
    picking the next queued job, completing or failing the conversion in
    flight, going idle, toggling the palette mode, clearing the list,
    changing the selection or downloading, at most one job has the status
    [processing]. *)
Theorem at_most_one_processing st :
  reachable st → (count_status processing (items st) ≤ 1)%nat.
Proof.
  intros H. by apply queue_inv_processing_le_1, queue_inv_reachable.
Qed.

(* ===================================================================== *)
(** * Facts about ingestion *)
(* ===================================================================== *)

Section IngestFacts.

Variable loadAsync : File → option (list ZipEntry).

Implicit Types (st : App) (files : list File) (entries : list ZipEntry).


Lemma new_items_names n files :
  map item_name (new_items n files) = map file_name files.
Proof.
  revert n. induction files as [|f fs IH]; intros n; simpl; [done|].
  by rewrite IH.
Qed.

Lemma new_items_fresh n files :
  Forall (λ f, isSupportedExt (extFromName (file_name f)) = true) files →
  Forall fresh_image_job (new_items n files).
Proof.
  revert n. induction files as [|f fs IH]; intros n Hall; simpl; [constructor|].
  apply Forall_cons in Hall as [Hf Hfs]. constructor; [|by apply IH].
  repeat split. exact Hf.
Qed.

(** [entries.some(...)] is false exactly when every entry has the first
    extension. *)
Lemma mixed_false entries firstExt :
  existsb (λ entry, negb (String.eqb (extFromName (entry_name entry)) firstExt))
          entries = false
  ↔ ∀ e, e ∈ entries → extFromName (entry_name e) = firstExt.
Proof.
  induction entries as [|e es IH]; simpl.
  - split; [intros _ e H; inversion H | done].
  - rewrite orb_false_iff, IH, negb_false_iff, String.eqb_eq. split.
    + intros [He Hes] e' [->|Hin]%elem_of_cons; [done | by apply Hes].
    + intros H. split; [apply H; left | intros e' Hin; apply H; by right].
Qed.



Lemma ingested_refl st : ingested st st.
Proof. exists [], []. by rewrite !app_nil_r. Qed.

Lemma ingested_trans st1 st2 st3 :
  ingested st1 st2 → ingested st2 st3 → ingested st1 st3.
Proof.
  intros (a1 & r1 & Hi1 & Ha1 & Ht1 & Hr1) (a2 & r2 & Hi2 & Ha2 & Ht2 & Hr2).
  exists (a1 ++ a2)%list, (r1 ++ r2)%list.
  rewrite Hi2, Hi1, Ht2, Ht1, !app_assoc.
  repeat split; by apply Forall_app.
Qed.

Lemma ingested_setToast e st : ingested st (setToast (notice e) st).
Proof.
  exists [], [notice e]. simpl. rewrite app_nil_r.
  repeat split; [constructor|].
  constructor; [by exists e | constructor].
Qed.

Lemma ingested_enqueueFiles files st :
  Forall (λ f, isSupportedExt (extFromName (file_name f)) = true) files →
  ingested st (enqueueFiles files st).
Proof.
  intros Hall. exists (new_items (next_id st) files), []. simpl.
  rewrite app_nil_r. repeat split; [by apply new_items_fresh | constructor].
Qed.

Lemma ingested_handleZip zip st :
  ingested st (state_of (handleZip loadAsync zip st)).
Proof.
  unfold handleZip. destruct (loadAsync zip) as [fs|]; [|apply ingested_refl].
  destruct (filter _ fs) as [|first rest] eqn:Hentries.
  { apply (ingested_setToast EmptyArchiveError). }
  destruct (isSupportedExt (extFromName (entry_name first))) eqn:Hsup; simpl.
  2: { apply (ingested_setToast UnsupportedExtensionError). }
  destruct (String.eqb_spec (extFromName (entry_name first))
                            (extFromName (entry_name first))) as [_|]; [|done].
  simpl.
  destruct (existsb _ rest) eqn:Hmixed; simpl.
  { apply (ingested_setToast MixedExtensionError). }
  apply ingested_enqueueFiles. apply Forall_forall. intros f Hf.
  apply elem_of_cons in Hf as [->|Hf]; [done|].
  apply list_elem_of_fmap in Hf as (e & -> & He). simpl.
  by rewrite (proj1 (mixed_false rest _) Hmixed e He).
Qed.

Lemma ingested_handleZips zips st :
  ingested st (state_of (handleZips loadAsync zips st)).
Proof.
  revert st. induction zips as [|zip rest IH]; intros st; simpl.
  - apply ingested_refl.
  - pose proof (ingested_handleZip zip st) as Hz.
    destruct (handleZip loadAsync zip st) as [st'|st']; simpl in *; [|done].
    by apply (ingested_trans st st').
Qed.

Lemma filter_relevant_zips files :
  filter (λ file, is_zip file = true)
         (filter (λ file, is_zip file = true ∨ is_image file = true) files)
  = filter (λ file, is_zip file = true) files.
Proof.
  rewrite list_filter_filter. apply list_filter_iff. tauto.
Qed.

Lemma filter_relevant_images files :
  filter (λ file, is_image file = true)
         (filter (λ file, is_zip file = true ∨ is_image file = true) files)
  = filter (λ file, is_image file = true) files.
Proof.
  rewrite list_filter_filter. apply list_filter_iff. tauto.
Qed.

End IngestFacts.


Section DottedNames.





End DottedNames.




(** C10.  [handleFiles] behaves on a batch exactly as on the batch without
    the files that are neither a zip nor a supported image: such a file
    adds no job and raises no notice.  The notice that there is nothing to
    convert is raised when the batch has no zip and no supported image, and
    only then: otherwise every job added is a queued job with a supported
    image extension and every notice raised is one of the three archive
    notices. *)
Theorem handleFiles_drops_unsupported
    (loadAsync : File → option (list ZipEntry)) files st :
  let zips := filter (λ file, is_zip file = true) files in
  let images := filter (λ file, is_image file = true) files in
  let out := handleFiles loadAsync files st in
  out = handleFiles loadAsync
          (filter (λ file, is_zip file = true ∨ is_image file = true) files) st
  ∧ (zips = [] ∧ images = [] →
       out = Resolved (setToast nothing_to_convert st)
       ∧ items (state_of out) = items st)
  ∧ (zips ≠ [] ∨ images ≠ [] →
       ingested st (state_of out)
       ∧ ∀ raised, toasts (state_of out) = (toasts st ++ raised)%list →
                   nothing_to_convert ∉ raised).
Proof.
  intros zips images out. split; [|split].
  - subst out. unfold handleFiles.
    by rewrite filter_relevant_zips, filter_relevant_images.
  - intros [Hz Hi]. subst out. unfold handleFiles. fold zips images.
    rewrite Hz, Hi. simpl. done.
  - intros Hne.
    assert (Hing : ingested st (state_of out)).
    { subst out. unfold handleFiles. fold zips images.
      assert (bool_decide (zips = []) && bool_decide (images = []) = false) as ->.
      { apply andb_false_iff.
        destruct Hne; [left|right]; by apply bool_decide_eq_false. }
      pose proof (ingested_handleZips loadAsync zips st) as Hz.
      destruct (handleZips loadAsync zips st) as [st'|st']; simpl in *; [|done].
      case_bool_decide; simpl; [done|].
      apply (ingested_trans st st'); [done|].
      apply ingested_enqueueFiles, Forall_forall. intros f Hf.
      by apply list_elem_of_filter in Hf as [Hf _]. }
    split; [exact Hing|].
    intros raised Hraised Hin.
    destruct Hing as (added & raised' & _ & _ & Ht & Hall).
    rewrite Hraised in Ht. apply app_inv_head in Ht. subst raised'.
    rewrite Forall_forall in Hall. destruct (Hall _ Hin) as [[] Heq];
      discriminate Heq.
Qed.

(** Ingestion stays inside the transition system: what [handleFiles]
    does to the state is a sequence of [setToast] and [enqueueFiles]
    transitions. *)
Section IngestReachable.

Variable loadAsync : File → option (list ZipEntry).

Lemma reachable_step st st' : reachable st → step st st' → reachable st'.
Proof. unfold reachable. intros H Hs. by eapply rtc_r. Qed.

Lemma handleZip_reachable zip st :
  reachable st → reachable (state_of (handleZip loadAsync zip st)).
Proof.
  intros H. unfold handleZip.
  destruct (loadAsync zip) as [fs|]; [|done].
  destruct (filter _ fs) as [|first rest]; simpl.
  { eapply reachable_step; [done|apply step_toast]. }
  destruct (negb _); simpl.
  { eapply reachable_step; [done|apply step_toast]. }
  destruct (_ || _); simpl.
  - eapply reachable_step; [done|apply step_toast].
  - eapply reachable_step; [done|apply step_enqueue].
Qed.

Lemma handleZips_reachable zips st :
  reachable st → reachable (state_of (handleZips loadAsync zips st)).
Proof.
  revert st. induction zips as [|zip rest IH]; intros st H; simpl; [done|].
  pose proof (handleZip_reachable zip st H) as Hz.
  destruct (handleZip loadAsync zip st) as [st'|st']; simpl in *; [|done].
  by apply IH.
Qed.

Lemma handleFiles_reachable files st :
  reachable st → reachable (state_of (handleFiles loadAsync files st)).
Proof.
  intros H. unfold handleFiles.
  destruct (_ && _); simpl.
  { eapply reachable_step; [done|apply step_toast]. }
  pose proof (handleZips_reachable
                (filter (λ file, is_zip file = true) files) st H) as Hz.
  destruct (handleZips loadAsync _ st) as [st'|st']; simpl in *; [|done].
  case_bool_decide; simpl; [done|].
  eapply reachable_step; [done|apply step_enqueue].
Qed.

End IngestReachable.

(* ===================================================================== *)
(** * Facts about the archive downloads *)
(* ===================================================================== *)

(** C8 (as stated, refuted).  With no job at all, both archive downloads
    resolve, raise no notice and leave the state as it was: the export of
    an empty set does not fail. *)
Lemma empty_export_does_not_fail :
  selectedItems init = [] ∧ doneItems init = []
  ∧ ¬ signals_failure init (downloadSelectedZip init)
  ∧ ¬ signals_failure init (downloadAllZip init).
Proof.
  repeat split; intros H; by apply H.
Qed.

(** C8 (amended).  Invoked on an empty job set, [downloadSelectedZip] and
    [downloadAllZip] return at once: the promise resolves, nothing is
    downloaded, no notice is raised and the state is unchanged; no error is
    signalled.  On a non-empty set an archive is handed to the browser. *)
Theorem empty_export_is_silent_noop st :
  (selectedItems st = [] →
     downloadSelectedZip st = Resolved st
     ∧ ¬ signals_failure st (downloadSelectedZip st))
  ∧ (doneItems st = [] →
       downloadAllZip st = Resolved st
       ∧ ¬ signals_failure st (downloadAllZip st))
  ∧ (selectedItems st ≠ [] →
       ∃ d, downloadSelectedZip st = Resolved (add_download d st))
  ∧ (doneItems st ≠ [] →
       ∃ d, downloadAllZip st = Resolved (add_download d st)).
Proof.
  unfold downloadSelectedZip, downloadAllZip, downloadZip.
  repeat split.
  - by rewrite H.
  - rewrite H. simpl. intros Hf. by apply Hf.
  - by rewrite H.
  - rewrite H. simpl. intros Hf. by apply Hf.
  - intros Hne. case_bool_decide as Hlen; [|eauto].
    by apply nil_length_inv in Hlen.
  - intros Hne. case_bool_decide as Hlen; [|eauto].
    by apply nil_length_inv in Hlen.
Qed.

(* ===================================================================== *)
(** * Binary64 arithmetic on luminances *)
(* ===================================================================== *)

Section Rounding.
Local Open Scope Z_scope.

(** The powers of two of the error budget, as numerals. *)
Ltac numerals :=
  change (2 ^ 20) with 1048576 in *;
  change (2 ^ 64) with 18446744073709551616 in *;
  change (2 ^ 70) with 1180591620717411303424 in *;
  change (2 ^ 72) with 4722366482869645213696 in *.

(** The three literals of the luminance formula denote the binary64 values
    nearest to [0.2126], [0.7152] and [0.0722]. *)
Lemma literals_nearest :
  literal_nearest lit_0_2126 2126 10000 = true
  ∧ literal_nearest lit_0_7152 7152 10000 = true
  ∧ literal_nearest lit_0_0722 722 10000 = true.
Proof. repeat split. Qed.

(** The number of binary digits brackets the mantissa. *)
Lemma digits2_pos_bounds m :
  2 ^ (Z.pos (digits2_pos m) - 1) ≤ Z.pos m < 2 ^ Z.pos (digits2_pos m).
Proof.
  induction m as [m IH|m IH|]; simpl digits2_pos.
  - rewrite Pos2Z.inj_succ, (Pos2Z.inj_xI m).
    replace (Z.succ (Z.pos (digits2_pos m)) - 1)
      with (Z.succ (Z.pos (digits2_pos m) - 1)) by lia.
    rewrite !Z.pow_succ_r by lia. lia.
  - rewrite Pos2Z.inj_succ, (Pos2Z.inj_xO m).
    replace (Z.succ (Z.pos (digits2_pos m)) - 1)
      with (Z.succ (Z.pos (digits2_pos m) - 1)) by lia.
    rewrite !Z.pow_succ_r by lia. lia.
  - simpl. lia.
Qed.

Lemma digits2_pos_unique m k :
  2 ^ (k - 1) ≤ Z.pos m < 2 ^ k → Z.pos (digits2_pos m) = k.
Proof.
  intros [Hlo Hhi]. pose proof (digits2_pos_bounds m) as [Hlo' Hhi'].
  assert (0 < k).
  { destruct (Z_lt_le_dec 0 k) as [|Hk]; [done|].
    assert (2 ^ k ≤ 2 ^ 0) by (apply Z.pow_le_mono_r; lia).
    simpl in *. lia. }
  destruct (Z_lt_le_dec (Z.pos (digits2_pos m)) k) as [Hlt|Hge].
  - assert (2 ^ Z.pos (digits2_pos m) ≤ 2 ^ (k - 1))
      by (apply Z.pow_le_mono_r; lia). lia.
  - destruct (Z_lt_le_dec k (Z.pos (digits2_pos m))) as [Hlt|Hle]; [|lia].
    assert (2 ^ k ≤ 2 ^ (Z.pos (digits2_pos m) - 1))
      by (apply Z.pow_le_mono_r; lia). lia.
Qed.

(** One step of the right shift halves the mantissa. *)
Lemma shr_1_m mrs : 0 ≤ shr_m mrs → shr_m (shr_1 mrs) = shr_m mrs / 2.
Proof.
  destruct mrs as [m r s]; simpl. intros Hm.
  rewrite <- Z.div2_div.
  destruct m as [|[p|p|]|p]; try reflexivity; lia.
Qed.

Lemma iter_pos_shr_m p : ∀ mrs,
  0 ≤ shr_m mrs → shr_m (SpecFloat.iter_pos shr_1 p mrs) = shr_m mrs / 2 ^ Z.pos p.
Proof.
  induction p as [p IH|p IH|]; intros mrs Hm; simpl SpecFloat.iter_pos.
  - assert (0 ≤ shr_m (shr_1 mrs)).
    { rewrite shr_1_m by done. apply Z.div_pos; lia. }
    assert (0 ≤ shr_m (SpecFloat.iter_pos shr_1 p (shr_1 mrs))).
    { rewrite IH by done. apply Z.div_pos; lia. }
    rewrite IH, IH, shr_1_m by done.
    rewrite !Z.div_div by lia. f_equal.
    rewrite (Pos2Z.inj_xI p).
    replace (2 * Z.pos p + 1) with (1 + Z.pos p + Z.pos p) by lia.
    rewrite !Z.pow_add_r by lia. change (2 ^ 1) with 2. ring.
  - assert (0 ≤ shr_m (SpecFloat.iter_pos shr_1 p mrs)).
    { rewrite IH by done. apply Z.div_pos; lia. }
    rewrite IH, IH by done.
    rewrite !Z.div_div by lia. f_equal.
    rewrite (Pos2Z.inj_xO p).
    replace (2 * Z.pos p) with (Z.pos p + Z.pos p) by lia.
    rewrite !Z.pow_add_r by lia. reflexivity.
  - rewrite shr_1_m by done. reflexivity.
Qed.

Lemma round_nearest_even_bounds m l :
  m ≤ round_nearest_even m l ≤ m + 1.
Proof.
  destruct l as [|[]]; simpl; [lia| |lia|lia].
  destruct (Z.even m); lia.
Qed.

Lemma fexp_normal d e : -1074 ≤ d + e - 53 → fexp 53 1024 (d + e) = d + e - 53.
Proof. unfold fexp, emin. lia. Qed.

Lemma binary_round_aux_pos (P : positive) (ez : Z) :
  let d := Z.pos (digits2_pos P) in
  53 ≤ d → -1074 ≤ ez → d + ez ≤ 1023 →
  ∃ m' e',
    binary_round_aux 53 1024 false (Z.pos P) ez loc_Exact = S754_finite false m' e'
    ∧ digits2_pos m' = 53%positive
    ∧ ez + (d - 53) ≤ e' ≤ ez + (d - 53) + 1
    ∧ (Z.pos P / 2 ^ (d - 53)) * 2 ^ (d - 53) ≤ Z.pos m' * 2 ^ (e' - ez)
      ≤ (Z.pos P / 2 ^ (d - 53) + 1) * 2 ^ (d - 53).
Proof.
  intros d Hd Hez Hmax.
  unfold binary_round_aux, shr_fexp. 
  cbn [Zdigits2]. fold d. rewrite fexp_normal by lia.
  replace (d + ez - 53 - ez) with (d - 53) by lia.
  destruct (d - 53) as [|n|n] eqn:Hn; [| |lia].
  - cbn [shr shr_record_of_loc loc_of_shr_record round_nearest_even shr_m Zdigits2].
    fold d. rewrite fexp_normal by lia.
    replace (d + ez - 53 - ez) with 0 by lia.
    cbn [shr shr_record_of_loc shr_m].
    exists P, ez.
    assert ((ez <=? 1024 - 53) = true) as -> by (apply Z.leb_le; lia).
    split; [reflexivity|]. split; [unfold d in Hn; lia|].
    split; [lia|].
    replace (ez - ez) with 0 by lia. rewrite Z.pow_0_r, Z.div_1_r. lia.
  - cbn [shr shr_record_of_loc].
    set (mrs := SpecFloat.iter_pos shr_1 n _).
    assert (Hq : shr_m mrs = Z.pos P / 2 ^ Z.pos n)
      by (apply iter_pos_shr_m; simpl; lia).
    pose proof (digits2_pos_bounds P) as [Hlo Hhi]. fold d in Hlo, Hhi.
    assert (Hpow : 0 < 2 ^ Z.pos n) by (apply Z.pow_pos_nonneg; lia).
    assert (Hlo' : 2 ^ 52 * 2 ^ Z.pos n ≤ Z.pos P).
    { rewrite <- Z.pow_add_r by lia.
      replace (52 + Z.pos n) with (d - 1) by lia. exact Hlo. }
    assert (Hhi' : Z.pos P < 2 ^ 53 * 2 ^ Z.pos n).
    { rewrite <- Z.pow_add_r by lia.
      replace (53 + Z.pos n) with d by lia. exact Hhi. }
    assert (Hq1 : 2 ^ 52 ≤ Z.pos P / 2 ^ Z.pos n)
      by (apply Z.div_le_lower_bound; lia).
    assert (Hq2 : Z.pos P / 2 ^ Z.pos n < 2 ^ 53)
      by (apply Z.div_lt_upper_bound; lia).
    pose proof (round_nearest_even_bounds (shr_m mrs) (loc_of_shr_record mrs))
      as Hr.
    rewrite Hq in *.
    set (q := Z.pos P / 2 ^ Z.pos n) in *.
    destruct (round_nearest_even q (loc_of_shr_record mrs)) as [|m1|m1] eqn:Hm1;
      [change (2 ^ 52) with 4503599627370496 in *; lia| |lia].
    cbn [Zdigits2].
    destruct (Z_lt_le_dec (Z.pos m1) (2 ^ 53)) as [Hlt|Hge].
    + assert (Hd1 : Z.pos (digits2_pos m1) = 53)
        by (apply digits2_pos_unique; change (53 - 1) with 52; lia).
      rewrite Hd1, fexp_normal by lia.
      replace (53 + (ez + Z.pos n) - 53 - (ez + Z.pos n)) with 0 by lia.
      cbn [shr shr_record_of_loc shr_m].
      assert ((ez + Z.pos n <=? 1024 - 53) = true) as -> by (apply Z.leb_le; lia).
      exists m1, (ez + Z.pos n).
      split; [reflexivity|]. split; [lia|]. split; [lia|].
      replace (ez + Z.pos n - ez) with (Z.pos n) by lia. nia.
    + assert (Z.pos m1 = 2 ^ 53) as Hm by lia.
      change (2 ^ 53) with (Z.pos 9007199254740992) in Hm.
      injection Hm as ->.
      change (Z.pos (digits2_pos 9007199254740992)) with 54.
      rewrite fexp_normal by lia.
      replace (54 + (ez + Z.pos n) - 53 - (ez + Z.pos n)) with 1 by lia.
      cbn [shr shr_record_of_loc shr_m SpecFloat.iter_pos shr_1].
      assert ((ez + Z.pos n + 1 <=? 1024 - 53) = true) as ->
        by (apply Z.leb_le; lia).
      exists 4503599627370496%positive, (ez + Z.pos n + 1).
      split; [reflexivity|]. split; [reflexivity|]. split; [lia|].
      replace (ez + Z.pos n + 1 - ez) with (1 + Z.pos n) by lia.
      rewrite Z.pow_add_r by lia. change (2 ^ 1) with 2.
      change (2 ^ 53) with 9007199254740992 in *. nia.
Qed.

Lemma shl_align_fst m e ez :
  ez ≤ e → Z.pos (fst (shl_align m e ez)) = Z.pos m * 2 ^ (e - ez).
Proof.
  intros Hle. unfold shl_align.
  destruct (ez - e) as [|d|d] eqn:Hd; [| lia |].
  - replace (e - ez) with 0 by lia. simpl fst. lia.
  - replace (e - ez) with (Z.pos d) by lia. simpl fst.
    rewrite (Pos.iter_swap_gen _ _ Z.pos xO (Z.mul 2)) by reflexivity.
    change (Pos.iter (Z.mul 2) (Z.pos m) d) with (Z.shiftl (Z.pos m) (Z.pos d)).
    apply Z.shiftl_mul_pow2. lia.
Qed.

Lemma pow2_lt_inv a b : 0 ≤ b → 2 ^ a < 2 ^ b → a < b.
Proof.
  intros Hb Hlt. destruct (Z_lt_le_dec a b) as [|Hge]; [done|].
  assert (2 ^ b ≤ 2 ^ a) by (apply Z.pow_le_mono_r; lia). lia.
Qed.

Lemma num_add_small x y :
  small x → small y → scaled x + scaled y < 2 ^ 72 →
  small (num_add x y)
  ∧ Z.abs (scaled (num_add x y) - (scaled x + scaled y)) ≤ 2 ^ 20.
Proof.
  intros [->|(m1 & e1 & -> & Hd1 & He1)] [->|(m2 & e2 & -> & Hd2 & He2)] HS.
  - split; [by left|]. simpl. lia.
  - split; [right; eauto|]. cbn [num_add SFadd scaled]. lia.
  - split; [right; eauto|]. cbn [num_add SFadd scaled]. lia.
  - cbn [scaled] in HS.
    unfold num_add, SFadd, prec, emax. cbn [cond_Zopp].
    set (ez := Z.min e1 e2).
    rewrite <- Pos2Z.inj_add. cbn [binary_normalize].
    set (P := (fst (shl_align m1 e1 ez) + fst (shl_align m2 e2 ez))%positive).
    assert (HP : Z.pos P = Z.pos m1 * 2 ^ (e1 - ez) + Z.pos m2 * 2 ^ (e2 - ez)).
    { unfold P. rewrite Pos2Z.inj_add, !shl_align_fst by lia. reflexivity. }
    assert (HU : 0 < 2 ^ (ez + 64)) by (apply Z.pow_pos_nonneg; lia).
    assert (HPS : Z.pos P * 2 ^ (ez + 64)
                  = Z.pos m1 * 2 ^ (e1 + 64) + Z.pos m2 * 2 ^ (e2 + 64)).
    { rewrite HP, Z.mul_add_distr_r, <- !Z.mul_assoc, <- !Z.pow_add_r by lia.
      by replace (e1 - ez + (ez + 64)) with (e1 + 64) by lia;
         replace (e2 - ez + (ez + 64)) with (e2 + 64) by lia. }
    pose proof (digits2_pos_bounds P) as [Hlo Hhi].
    pose proof (digits2_pos_bounds m1) as [Hlo1 _]. rewrite Hd1 in Hlo1.
    change (2 ^ (53 - 1)) with (2 ^ 52) in Hlo1.
    set (d := Z.pos (digits2_pos P)) in *.
    assert (Hd : 53 ≤ d).
    { assert (1 ≤ 2 ^ (e1 - ez)) by (apply (Z.pow_le_mono_r 2 0); lia).
      assert (0 < Z.pos m2 * 2 ^ (e2 - ez))
        by (apply Z.mul_pos_pos; [lia|apply Z.pow_pos_nonneg; lia]).
      assert (2 ^ 52 < 2 ^ d) by nia.
      apply pow2_lt_inv in H1; lia. }
    assert (Hde : d + ez ≤ 8).
    { assert (2 ^ (d - 1 + (ez + 64)) < 2 ^ 72).
      { rewrite Z.pow_add_r by lia. nia. }
      apply pow2_lt_inv in H; lia. }
    unfold binary_round. fold d. rewrite fexp_normal by lia.
    assert (shl_align P ez (d + ez - 53) = (P, ez)) as ->.
    { unfold shl_align. destruct (d + ez - 53 - ez) eqn:?; [done|done|lia]. }
    destruct (binary_round_aux_pos P ez) as (m' & e' & -> & Hd' & He' & Hv);
      [fold d; lia..|].
    fold d in He', Hv.
    split.
    { right. exists m', e'. split; [done|]. split; [done|]. lia. }
    cbn [scaled]. rewrite <- HPS.
    set (n := d - 53) in *.
    set (q := Z.pos P / 2 ^ n) in *.
    assert (HW : 0 < 2 ^ n) by (apply Z.pow_pos_nonneg; lia).
    assert (Hq : q * 2 ^ n ≤ Z.pos P < (q + 1) * 2 ^ n).
    { unfold q. pose proof (Z.mul_div_le (Z.pos P) (2 ^ n) HW).
      pose proof (Z.mul_succ_div_gt (Z.pos P) (2 ^ n) HW). lia. }
    replace (e' + 64) with ((e' - ez) + (ez + 64)) by lia.
    rewrite Z.pow_add_r, Z.mul_assoc by lia.
    assert (HWU : 2 ^ n * 2 ^ (ez + 64) ≤ 2 ^ 20).
    { rewrite <- Z.pow_add_r by lia. apply Z.pow_le_mono_r; lia. }
    set (M := Z.pos m' * 2 ^ (e' - ez)) in *.
    set (W := 2 ^ n) in *. set (U := 2 ^ (ez + 64)) in *.
    assert (- (W * U) ≤ (M - Z.pos P) * U ≤ W * U) by nia.
    lia.
Qed.

Lemma byte_in_bytes r : 0 ≤ r ≤ 255 → In r bytes.
Proof.
  intros Hr. unfold bytes. rewrite <- (Z2Nat.id r) by lia.
  apply in_map, in_seq. lia.
Qed.

Lemma product_ok_small c K r :
  product_ok c K r = true →
  small (num_mul c (of_int r))
  ∧ Z.abs (10000 * scaled (num_mul c (of_int r)) - K * r * 2 ^ 64)
    ≤ 10000 * 2 ^ 20.
Proof.
  unfold product_ok.
  destruct (num_mul c (of_int r)) as [[]|[]| |[] m e]; try discriminate.
  - intros ->%Z.eqb_eq. split; [by left|]. simpl. numerals. lia.
  - intros [[[Hd%Pos.eqb_eq H1%Z.leb_le]%andb_prop H2%Z.leb_le]%andb_prop
              H3%Z.leb_le]%andb_prop.
    split; [right; exists m, e; repeat split; done|]. exact H3.
Qed.

Lemma products_checked :
  forallb (λ r, product_ok lit_0_2126 2126 r && product_ok lit_0_7152 7152 r
                && product_ok lit_0_0722 722 r) bytes = true.
Proof. vm_compute. reflexivity. Qed.

Lemma products_small r :
  0 ≤ r ≤ 255 →
  product_ok lit_0_2126 2126 r = true ∧ product_ok lit_0_7152 7152 r = true
  ∧ product_ok lit_0_0722 722 r = true.
Proof.
  intros Hr. pose proof products_checked as H.
  rewrite forallb_forall in H. specialize (H r (byte_in_bytes r Hr)).
  apply andb_prop in H as [[H1 H2]%andb_prop H3]. done.
Qed.

(** The luminance is a small number within [2^-41] of
    [(2126*R + 7152*G + 722*B) / 10000]. *)
Lemma lum_small r g b :
  0 ≤ r ≤ 255 → 0 ≤ g ≤ 255 → 0 ≤ b ≤ 255 →
  small (lum r g b)
  ∧ Z.abs (10000 * scaled (lum r g b) - (2126 * r + 7152 * g + 722 * b) * 2 ^ 64)
    ≤ 50000 * 2 ^ 20.
Proof.
  intros Hr Hg Hb. unfold lum.
  destruct (products_small r Hr) as (Hpr & _ & _).
  destruct (products_small g Hg) as (_ & Hpg & _).
  destruct (products_small b Hb) as (_ & _ & Hpb).
  apply product_ok_small in Hpr as [Sr Er], Hpg as [Sg Eg], Hpb as [Sb Eb].
  set (pr := num_mul lit_0_2126 (of_int r)) in *.
  set (pg := num_mul lit_0_7152 (of_int g)) in *.
  set (pb := num_mul lit_0_0722 (of_int b)) in *.
  destruct (num_add_small pr pg Sr Sg) as [S1 E1]; [numerals; lia|].
  destruct (num_add_small (num_add pr pg) pb S1 Sb) as [S2 E2]; [numerals; lia|].
  split; [exact S2|]. numerals. lia.
Qed.

Lemma of_int_64 : of_int 64 = S754_finite false 4503599627370496 (-46).
Proof. reflexivity. Qed.

Lemma div_eucl_exact a b : 0 < b → Z.div_eucl (a * b) b = (a, 0).
Proof.
  intros Hb. pose proof (Z.div_mul a b) as Hd. pose proof (Z.mod_mul a b) as Hm.
  unfold Z.div, Z.modulo in Hd, Hm.
  destruct (Z.div_eucl (a * b) b) as [q r]. 
  rewrite Hd, Hm by lia. reflexivity.
Qed.

(** Dividing a small number by [64] lowers its exponent by six. *)
Lemma num_div_64 m e :
  digits2_pos m = 53%positive → -64 ≤ e ≤ -44 →
  num_div (S754_finite false m e) (of_int 64) = S754_finite false m (e - 6).
Proof.
  intros Hd He. rewrite of_int_64.
  unfold num_div, prec, emax, SFdiv, SFdiv_core_binary.
  cbn [Zdigits2 xorb]. rewrite Hd.
  change (Z.pos (digits2_pos 4503599627370496)) with 53.
  replace (53 + e - (53 + -46)) with (53 + (e - 7)) by lia.
  rewrite fexp_normal by lia.
  replace (Z.min (53 + (e - 7) - 53) (e - -46)) with (e - 7) by lia.
  replace (e - -46 - (e - 7)) with 53 by lia.
  rewrite Z.shiftl_mul_pow2 by lia.
  replace (Z.pos m * 2 ^ 53) with (Z.pos m~0 * Z.pos 4503599627370496) by lia.
  rewrite div_eucl_exact by lia.
  change (new_location (Z.pos 4503599627370496) 0) with loc_Exact.
  unfold binary_round_aux, shr_fexp. cbn [Zdigits2 digits2_pos]. rewrite Hd.
  change (Z.pos (Pos.succ 53)) with 54.
  rewrite fexp_normal by lia.
  replace (54 + (e - 7) - 53 - (e - 7)) with 1 by lia.
  cbn [shr SpecFloat.iter_pos shr_record_of_loc shr_1 loc_of_shr_record
       round_nearest_even shr_m Zdigits2 orb].
  rewrite Hd, fexp_normal by lia.
  replace (53 + (e - 7 + 1) - 53 - (e - 7 + 1)) with 0 by lia.
  cbn [shr shr_record_of_loc shr_m].
  assert ((e - 7 + 1 <=? 1024 - 53) = true) as -> by (apply Z.leb_le; lia).
  f_equal. lia.
Qed.

(** Where the level computed from a small luminance points in the
    palette: at band [floor (x / 64)], capped at [3]. *)
Lemma level_index_small x :
  small x → scaled x ≤ 2 ^ 72 →
  array_index
    (Math_min (of_int 3)
       (Math_max (of_int 0) (Math_floor (num_div x (of_int 64)))))
  = Some (Z.to_nat (Z.min 3 (scaled x / 2 ^ 70))).
Proof.
  intros [->|(m & e & -> & Hd & He)] Hle; [reflexivity|].
  rewrite num_div_64 by done. cbn [scaled] in *.
  assert (Hq : Z.pos m * 2 ^ (e + 64) / 2 ^ 70 = Z.pos m / 2 ^ (6 - e)).
  { replace 70 with ((6 - e) + (e + 64)) by lia.
    rewrite (Z.pow_add_r 2 (6 - e) (e + 64)) by lia. apply Z.div_mul_cancel_r.
    - apply Z.pow_nonzero; lia.
    - apply Z.pow_nonzero; lia. }
  assert (Hq4 : 0 ≤ Z.pos m * 2 ^ (e + 64) / 2 ^ 70 ≤ 4).
  { split; [apply Z.div_pos; [|numerals]; lia|].
    apply Z.div_le_upper_bound; numerals; lia. }
  rewrite Hq in *. unfold Math_floor.
  destruct (e - 6) as [|p|p] eqn:Hp; [lia|lia|].
  replace (6 - e) with (Z.pos p) in * by lia.
  set (q := Z.pos m / 2 ^ Z.pos p) in *.
  assert (q = 0 ∨ q = 1 ∨ q = 2 ∨ q = 3 ∨ q = 4) as [->|[->|[->|[->| ->]]]]
    by lia; reflexivity.
Qed.

Lemma triple_eqb_eq s t : triple_eqb s t = true ↔ s = t.
Proof.
  destruct s as [[r g] b], t as [[r' g'] b']. unfold triple_eqb.
  rewrite !andb_true_iff, !Z.eqb_eq. split; [intros [[-> ->] ->]; done|].
  intros [= -> -> ->]. done.
Qed.

Lemma boundaries_listed :
  forallb (λ r, forallb (λ g, forallb (boundary_listed r g) [0; 1; 2; 3])
                        bytes) bytes = true.
Proof. vm_compute. reflexivity. Qed.

Lemma boundary_complete r g b :
  0 ≤ r ≤ 255 → 0 ≤ g ≤ 255 → 0 ≤ b ≤ 255 →
  lum10000 r g b mod 640000 = 0 → In (r, g, b) boundary_triples.
Proof.
  intros Hr Hg Hb Hmod. unfold lum10000 in Hmod.
  pose proof (Z.div_mod (2126 * r + 7152 * g + 722 * b) 640000) as Hdm.
  rewrite Hmod in Hdm.
  set (k := (2126 * r + 7152 * g + 722 * b) / 640000) in *.
  assert (Hk : In k [0; 1; 2; 3]).
  { assert (0 ≤ k ≤ 3) as Hk by lia. simpl.
    assert (k = 0 ∨ k = 1 ∨ k = 2 ∨ k = 3) by lia. intuition. }
  pose proof boundaries_listed as H.
  rewrite forallb_forall in H. specialize (H r (byte_in_bytes r Hr)).
  rewrite forallb_forall in H. specialize (H g (byte_in_bytes g Hg)).
  rewrite forallb_forall in H. specialize (H k Hk).
  unfold boundary_listed in H.
  replace (640000 * k - 2126 * r - 7152 * g) with (b * 722) in H by lia.
  rewrite Z.mod_mul, Z.div_mul in H by lia.
  assert ((0 <=? b * 722) = true) as Hc1 by (apply Z.leb_le; lia).
  assert ((b * 722 <=? 722 * 255) = true) as Hc2 by (apply Z.leb_le; lia).
  rewrite Hc1, Hc2, Z.eqb_refl in H.
  apply existsb_exists in H as (t & Hin & Ht).
  apply triple_eqb_eq in Ht. by subst t.
Qed.

Lemma boundary_levels :
  forallb (λ '(r, g, b), same_index (array_index (level r g b)) (code_band r g b))
          boundary_triples = true.
Proof. vm_compute. reflexivity. Qed.

Lemma lowered_on_boundary :
  forallb (λ '(r, g, b), lum10000 r g b mod 640000 =? 0) lowered_triples = true.
Proof. vm_compute. reflexivity. Qed.

Lemma rounded_down_boundary r g b :
  rounded_down r g b = true → lum10000 r g b mod 640000 = 0.
Proof.
  unfold rounded_down. intros (t & Hin & Ht)%existsb_exists.
  apply triple_eqb_eq in Ht. subst t.
  pose proof lowered_on_boundary as H. rewrite forallb_forall in H.
  specialize (H _ Hin). by apply Z.eqb_eq in H.
Qed.

Lemma same_index_Some o k : same_index o k = true → o = Some (Z.to_nat k).
Proof.
  destruct o as [i|]; simpl; [|discriminate].
  intros ->%Nat.eqb_eq. reflexivity.
Qed.

(** Off the boundaries the rounded luminance falls in the band of the
    exact one. *)
Lemma level_off_boundary r g b :
  0 ≤ r ≤ 255 → 0 ≤ g ≤ 255 → 0 ≤ b ≤ 255 →
  lum10000 r g b mod 640000 ≠ 0 →
  array_index (level r g b) = Some (Z.to_nat (spec_band r g b)).
Proof.
  intros Hr Hg Hb Hmod.
  destruct (lum_small r g b Hr Hg Hb) as [Hs He].
  fold (lum10000 r g b) in He.
  unfold level. rewrite level_index_small; [|done|numerals; unfold lum10000 in *; lia].
  do 2 f_equal. unfold spec_band. fold (lum10000 r g b).
  pose proof (Z.div_mod (lum10000 r g b) 640000) as Hdm.
  pose proof (Z.mod_pos_bound (lum10000 r g b) 640000) as Hmb.
  set (k := lum10000 r g b / 640000) in *.
  set (rho := lum10000 r g b mod 640000) in *.
  assert (0 ≤ k) by (unfold lum10000 in *; lia).
  replace (Z.max 0 k) with k by lia. f_equal.
  symmetry. apply (Z.div_unique _ _ k (scaled (lum r g b) - k * 2 ^ 70)).
  - left. numerals. lia.
  - lia.
Qed.

(** The band of every colour. *)
Lemma level_band r g b :
  0 ≤ r ≤ 255 → 0 ≤ g ≤ 255 → 0 ≤ b ≤ 255 →
  array_index (level r g b) = Some (Z.to_nat (code_band r g b)).
Proof.
  intros Hr Hg Hb.
  destruct (Z.eq_dec (lum10000 r g b mod 640000) 0) as [Hz|Hnz].
  - pose proof (boundary_complete r g b Hr Hg Hb Hz) as Hin.
    pose proof boundary_levels as H. rewrite forallb_forall in H.
    specialize (H _ Hin). simpl in H. by apply same_index_Some.
  - rewrite level_off_boundary by done. unfold code_band.
    destruct (rounded_down r g b) eqn:Hrd; [|done].
    by apply rounded_down_boundary in Hrd.
Qed.

Lemma code_band_range r g b :
  0 ≤ r ≤ 255 → 0 ≤ g ≤ 255 → 0 ≤ b ≤ 255 → 0 ≤ code_band r g b ≤ 3.
Proof.
  intros Hr Hg Hb. unfold code_band.
  destruct (rounded_down r g b) eqn:Hrd; [|unfold spec_band; lia].
  pose proof (rounded_down_boundary r g b Hrd) as Hz.
  unfold rounded_down in Hrd. apply existsb_exists in Hrd as (t & Hin & Ht).
  apply triple_eqb_eq in Ht. subst t.
  assert (forallb (λ '(r, g, b), (1 <=? spec_band r g b) && (spec_band r g b <=? 3))
                  lowered_triples = true) as H by (vm_compute; reflexivity).
  rewrite forallb_forall in H. specialize (H _ Hin). simpl in H.
  apply andb_prop in H as [H1%Z.leb_le H2%Z.leb_le]. lia.
Qed.

End Rounding.

(* ===================================================================== *)
(** * The pixel loop *)
(* ===================================================================== *)

Section Loop.

Variable palette : list Shade.
Hypothesis palette_length : length palette = 4%nat.

Implicit Types (data out : list Z) (j k n : nat).

Lemma pixel_Some data k r g b a :
  pixel data k = Some (r, g, b, a) ↔
  data !! (4 * k)%nat = Some r ∧ data !! (4 * k + 1)%nat = Some g
  ∧ data !! (4 * k + 2)%nat = Some b ∧ data !! (4 * k + 3)%nat = Some a.
Proof.
  unfold pixel. split.
  - destruct (data !! (4 * k)%nat), (data !! (4 * k + 1)%nat),
      (data !! (4 * k + 2)%nat), (data !! (4 * k + 3)%nat); intros [=]; subst; done.
  - intros (-> & -> & -> & ->). done.
Qed.

Lemma pixel_is_Some data n k :
  length data = (4 * n)%nat → (k < n)%nat → is_Some (pixel data k).
Proof.
  intros Hlen Hk. unfold pixel.
  destruct (lookup_lt_is_Some_2 data (4 * k)%nat) as [r ->]; [lia|].
  destruct (lookup_lt_is_Some_2 data (4 * k + 1)%nat) as [g ->]; [lia|].
  destruct (lookup_lt_is_Some_2 data (4 * k + 2)%nat) as [b ->]; [lia|].
  destruct (lookup_lt_is_Some_2 data (4 * k + 3)%nat) as [a ->]; [lia|].
  eauto.
Qed.

Lemma pixel_insert_other data i v j k :
  (4 * j ≤ i < 4 * j + 4)%nat → k ≠ j →
  pixel (<[i := v]> data) k = pixel data k.
Proof.
  intros Hi Hk. unfold pixel.
  rewrite !list_lookup_insert_ne by lia. reflexivity.
Qed.

Lemma paint_length j shade data : length (paint j shade data) = length data.
Proof. unfold paint. by rewrite !length_insert. Qed.

Lemma paint_other j shade data k :
  k ≠ j → pixel (paint j shade data) k = pixel data k.
Proof.
  intros Hk. unfold paint.
  rewrite !(pixel_insert_other _ _ _ j) by lia. reflexivity.
Qed.

Lemma paint_same j shade data r g b a :
  pixel data j = Some (r, g, b, a) →
  pixel (paint j shade data) j
  = Some (shade_r shade, shade_g shade, shade_b shade, a).
Proof.
  intros (Hr & Hg & Hb & Ha)%pixel_Some. apply pixel_Some.
  pose proof (lookup_lt_Some _ _ _ Ha) as Hlen. unfold paint.
  repeat split.
  - rewrite !list_lookup_insert_ne by lia.
    apply list_lookup_insert_eq. lia.
  - rewrite list_lookup_insert_ne by lia.
    apply list_lookup_insert_eq. rewrite length_insert. lia.
  - apply list_lookup_insert_eq. rewrite !length_insert. lia.
  - rewrite !list_lookup_insert_ne by lia. exact Ha.
Qed.

Lemma pixel_loop_recolors fuel : ∀ j data n,
  length data = (4 * n)%nat → (j ≤ n)%nat → (n - j ≤ fuel)%nat →
  (∀ k r g b a, (j ≤ k)%nat → pixel data k = Some (r, g, b, a) →
                (0 ≤ r ≤ 255 ∧ 0 ≤ g ≤ 255 ∧ 0 ≤ b ≤ 255)%Z) →
  ∃ out,
    pixel_loop fuel palette (4 * j) data = Some out
    ∧ length out = (4 * n)%nat
    ∧ (∀ k, (k < j)%nat → pixel out k = pixel data k)
    ∧ (∀ k p, (j ≤ k)%nat → pixel data k = Some p →
              ∃ q, pixel out k = Some q ∧ recolored palette p q).
Proof.
  induction fuel as [|fuel IH]; intros j data n Hlen Hj Hfuel Hbytes.
  - assert (j = n) as -> by lia. exists data. cbn [pixel_loop].
    rewrite bool_decide_eq_false_2 by lia.
    split; [done|]. split; [done|]. split; [done|].
    intros k p Hk Hp.
    assert (is_Some (data !! (4 * k + 3)%nat)) as Hs.
    { destruct p as [[[r g] b] a]. apply pixel_Some in Hp as (_ & _ & _ & Ha).
      eauto. }
    apply lookup_lt_is_Some in Hs. lia.
  - cbn [pixel_loop]. case_bool_decide as Hlt.
    2: { assert (j = n) as -> by lia. exists data.
         split; [done|]. split; [done|]. split; [done|].
         intros k p Hk Hp.
         assert (is_Some (data !! (4 * k + 3)%nat)) as Hs.
         { destruct p as [[[r g] b] a].
           apply pixel_Some in Hp as (_ & _ & _ & Ha). eauto. }
         apply lookup_lt_is_Some in Hs. lia. }
    assert (j < n)%nat as Hjn by lia.
    destruct (pixel_is_Some data n j Hlen Hjn) as [[[[r g] b] a] Hp].
    pose proof Hp as (Hr & Hg & Hb & Ha)%pixel_Some.
    cbv zeta. rewrite Ha. replace (4 * j + 4)%nat with (4 * S j)%nat by lia.
    case_bool_decide as Halpha.
    + (* a transparent pixel *)
      injection Halpha as ->.
      destruct (IH (S j) data n) as (out & Hout & Hlen' & Hold & Hnew);
        [done|lia|lia|intros; eapply Hbytes; [|done]; lia|].
      exists out. split; [done|]. split; [done|]. split.
      * intros k Hk. apply Hold. lia.
      * intros k p Hk Hpk. destruct (decide (k = j)) as [->|Hne].
        -- rewrite Hp in Hpk. injection Hpk as <-.
           exists (r, g, b, 0%Z). split; [|reflexivity].
           rewrite Hold by lia. done.
        -- apply Hnew; [lia|done].
    + (* a visible pixel *)
      rewrite Hr, Hg, Hb.
      destruct (Hbytes j r g b a (le_n j) Hp) as (Br & Bg & Bb).
      unfold shade_at. rewrite (level_band r g b Br Bg Bb).
      pose proof (code_band_range r g b Br Bg Bb) as Hrange.
      destruct (lookup_lt_is_Some_2 palette (Z.to_nat (code_band r g b)))
        as [shade Hshade]; [lia|].
      rewrite Hshade. fold (paint j shade data).
      destruct (IH (S j) (paint j shade data) n)
        as (out & Hout & Hlen' & Hold & Hnew);
        [by rewrite paint_length|lia|lia| |].
      { intros k r' g' b' a' Hk Hpk. rewrite paint_other in Hpk by lia.
        eapply Hbytes; [|done]. lia. }
      exists out. split; [done|]. split; [done|]. split.
      * intros k Hk. rewrite Hold by lia. apply paint_other. lia.
      * intros k p Hk Hpk. destruct (decide (k = j)) as [->|Hne].
        -- rewrite Hp in Hpk. injection Hpk as <-.
           exists (shade_r shade, shade_g shade, shade_b shade, a).
           split.
           ++ rewrite Hold by lia. by apply (paint_same _ _ _ r g b).
           ++ simpl. rewrite decide_False by congruence. eauto.
        -- apply Hnew; [lia|]. by rewrite paint_other.
Qed.

End Loop.

Lemma activePalette_length mode : length (activePalette mode) = 4%nat.
Proof. destruct mode; reflexivity. Qed.

Lemma image_data_bytes n data k r g b a :
  image_data n data → pixel data k = Some (r, g, b, a) →
  (0 ≤ r ≤ 255 ∧ 0 ≤ g ≤ 255 ∧ 0 ≤ b ≤ 255 ∧ 0 ≤ a ≤ 255)%Z.
Proof.
  intros [_ Hall] (Hr & Hg & Hb & Ha)%pixel_Some.
  rewrite Forall_lookup in Hall.
  pose proof (Hall _ _ Hr). pose proof (Hall _ _ Hg).
  pose proof (Hall _ _ Hb). pose proof (Hall _ _ Ha). done.
Qed.

(** The loop of [convertToDmg] runs to its end on every image and leaves
    each pixel as the loop body recolours it. *)
Lemma quantize_recolors mode n data :
  image_data n data →
  ∃ out,
    convertToDmg (activePalette mode) data = Some out
    ∧ length out = length data
    ∧ ∀ k p, pixel data k = Some p →
             ∃ q, pixel out k = Some q ∧ recolored (activePalette mode) p q.
Proof.
  intros Himg. pose proof Himg as [Hlen _].
  destruct (pixel_loop_recolors (activePalette mode) (activePalette_length mode)
              (length data) 0 data n)
    as (out & Hout & Hlen' & _ & Hnew); [done|lia|lia| |].
  { intros k r g b a _ Hp.
    destruct (image_data_bytes n data k r g b a Himg Hp) as (? & ? & ? & _).
    done. }
  exists out. split; [exact Hout|]. split; [lia|].
  intros k p Hp. apply Hnew; [lia|done].
Qed.

(** C2.  On every image, the loop of [convertToDmg] ends normally, and a
    pixel whose alpha byte is [0] comes out with the four bytes it had:
    red, green, blue and alpha are unchanged. *)
Theorem quantize_keeps_transparent mode n data :
  image_data n data →
  ∃ out,
    convertToDmg (activePalette mode) data = Some out
    ∧ length out = length data
    ∧ ∀ k r g b, pixel data k = Some (r, g, b, 0%Z) →
                 pixel out k = Some (r, g, b, 0%Z).
Proof.
  intros Himg.
  destruct (quantize_recolors mode n data Himg) as (out & Hout & Hlen & Hpx).
  exists out. split; [done|]. split; [done|].
  intros k r g b Hp. destruct (Hpx k _ Hp) as (q & Hq & Hrec).
  simpl in Hrec. by subst q.
Qed.

(** C1 (as stated, refuted).  The colour [(33, 61, 185)] has the exact
    luminance [64], hence band [1] in the words of the specification; the
    source computes [64 - 2^-47] for it and paints the pixel with entry
    [0] of the palette. *)
Lemma quantize_boundary_colour_one_band_lower :
  (2126 * 33 + 7152 * 61 + 722 * 185 = 64 * 10000)%Z
  ∧ spec_band 33 61 185 = 1%Z
  ∧ lum 33 61 185 = S754_finite false 9007199254740991 (-47)
  ∧ array_index (level 33 61 185) = Some 0%nat
  ∧ convertToDmg DMG_PALETTE [33; 61; 185; 255]%Z = Some [15; 56; 15; 255]%Z
  ∧ DMG_PALETTE !! 1%nat = Some (mkShade 48 98 48).
Proof. repeat split. Qed.

(** C1 (amended).  On every image the loop of [convertToDmg] ends
    normally, and a pixel with alpha above [0] gets the red, green and
    blue of the active palette's entry at the band index of its colour and
    keeps its alpha.  The band index is [min(3, max(0, floor(L / 64)))] for
    the luminance [L] computed in binary64 arithmetic.  It is the band
    [clamp(floor(L / 64), 0, 3)] of the exact luminance for every colour
    but thirteen, all with an exact luminance of [64], [128] or [192],
    which rounding puts one band lower.  Grey [63] is in band [0], grey
    [64] in band [1], grey [255] in band [3]. *)
Theorem quantize_recolors_visible mode n data :
  image_data n data →
  (∃ out,
     convertToDmg (activePalette mode) data = Some out
     ∧ length out = length data
     ∧ ∀ k r g b a, pixel data k = Some (r, g, b, a) → (0 < a)%Z →
         ∃ shade,
           shade_at (activePalette mode) (level r g b) = Some shade
           ∧ activePalette mode !! Z.to_nat (code_band r g b) = Some shade
           ∧ pixel out k
             = Some (shade_r shade, shade_g shade, shade_b shade, a))
  ∧ (∀ r g b, (0 ≤ r ≤ 255 → 0 ≤ g ≤ 255 → 0 ≤ b ≤ 255 →
       array_index (level r g b) = Some (Z.to_nat (code_band r g b))
       ∧ (0 ≤ code_band r g b ≤ 3)
       ∧ (¬ In (r, g, b) lowered_triples → code_band r g b = spec_band r g b)
       ∧ (In (r, g, b) lowered_triples →
            code_band r g b = spec_band r g b - 1
            ∧ In (lum10000 r g b) [640000; 1280000; 1920000]))%Z)
  ∧ code_band 63 63 63 = 0%Z ∧ code_band 64 64 64 = 1%Z
  ∧ code_band 255 255 255 = 3%Z.
Proof.
  intros Himg. split; [|split; [|repeat split]].
  - destruct (quantize_recolors mode n data Himg) as (out & Hout & Hlen & Hpx).
    exists out. split; [done|]. split; [done|].
    intros k r g b a Hp Ha. destruct (Hpx k _ Hp) as (q & Hq & Hrec).
    simpl in Hrec. rewrite decide_False in Hrec by lia.
    destruct Hrec as (shade & Hshade & ->). exists shade.
    destruct (image_data_bytes n data k r g b a Himg Hp) as (Br & Bg & Bb & _).
    split; [|done]. unfold shade_at. by rewrite level_band.
  - intros r g b Hr Hg Hb.
    split; [by apply level_band|]. split; [by apply code_band_range|].
    unfold code_band, rounded_down.
    destruct (existsb _ lowered_triples) eqn:Hex.
    + apply existsb_exists in Hex as (t & Hin & Ht).
      apply triple_eqb_eq in Ht. subst t. split; [done|]. intros _.
      split; [done|].
      assert (forallb (λ '(r, g, b),
                         existsb (Z.eqb (lum10000 r g b))
                                 [640000; 1280000; 1920000]%Z)
                      lowered_triples = true) as H by (vm_compute; reflexivity).
      rewrite forallb_forall in H. specialize (H _ Hin). cbv beta iota in H.
      apply existsb_exists in H as (x & Hx & ->%Z.eqb_eq). exact Hx.
    + split; [done|]. intros Hin. exfalso.
      assert (existsb (triple_eqb (r, g, b)) lowered_triples = true) as Hc.
      { apply existsb_exists. exists (r, g, b). split; [done|].
        by apply triple_eqb_eq. }
      congruence.
Qed.

(* ===================================================================== *)
(** * The theorems at sample inputs *)
(* ===================================================================== *)

Lemma reachable_st_processing : reachable st_processing.
Proof.
  unfold reachable.
  eapply rtc_l; [apply (step_enqueue [photo])|].
  eapply rtc_l; [apply (step_pick _ st_processing); reflexivity|].
  apply rtc_refl.
Defined.

(** C3 at the state where the watcher has just picked [photo.JPG]: one job
    is being processed, and not more. *)
Lemma at_most_one_processing_witness :
  reachable st_processing
  ∧ count_status processing (items st_processing) = 1%nat
  ∧ (count_status processing (items st_processing) ≤ 1)%nat.
Proof.
  split; [exact reachable_st_processing|]. split; [reflexivity|].
  apply (at_most_one_processing st_processing). exact reachable_st_processing.
Defined.

(** C6 at the state where [photo.JPG] is done and selected: after the
    toggle the job is queued, its result is cleared and its URL is gone. *)
Lemma togglePalette_requeues_all_witness :
  items st_selected
  = [mkItem 0 "photo.JPG" "jpg" photo done (Some 0%nat) (Some 2%Z) (Some 2%Z)
            None true]
  ∧ (∀ it, it ∈ items (togglePalette st_selected) →
       item_status it = queued ∧ cleared it)
  ∧ 0%nat ∉ live_urls (togglePalette st_selected).
Proof.
  split; [reflexivity|].
  destruct (togglePalette_requeues_all st_selected) as (_ & _ & Hq & Hr).
  split; [exact Hq|].
  apply (Hr (mkItem 0 "photo.JPG" "jpg" photo done (Some 0%nat) (Some 2%Z)
                    (Some 2%Z) None true) 0%nat).
  - apply list_elem_of_here.
  - reflexivity.
Defined.

(** C9 at the same state: the job selected while done is still selected
    after the reset and after the watcher picked it again. *)
Lemma reset_keeps_identity_and_selection_witness :
  watcher (togglePalette st_selected)
  = Some (default init (watcher (togglePalette st_selected)))
  ∧ map identity_fields
        (items (default init (watcher (togglePalette st_selected))))
    = map identity_fields (items (togglePalette st_selected))
  ∧ map identity_fields (items (togglePalette st_selected))
    = [(0%nat, "photo.JPG", "jpg", photo, true)].
Proof.
  split; [reflexivity|]. split; [|reflexivity].
  apply (proj1 (proj2 (proj2
           (reset_keeps_identity_and_selection (togglePalette st_selected))))).
  reflexivity.
Defined.


(** C10 at the batch [photo.JPG], [notes.txt]: the text file is dropped
    without a notice, the image is enqueued. *)
Lemma handleFiles_drops_unsupported_witness :
  handleFiles sample_loadAsync [photo; notes] init
  = handleFiles sample_loadAsync [photo] init
  ∧ handleFiles sample_loadAsync [photo; notes] init
    = Resolved (enqueueFiles [photo] init)
  ∧ toasts (enqueueFiles [photo] init) = []
  ∧ ingested init (state_of (handleFiles sample_loadAsync [photo; notes] init))
  ∧ handleFiles sample_loadAsync [notes] init
    = Resolved (setToast nothing_to_convert init).
Proof.
  destruct (handleFiles_drops_unsupported sample_loadAsync [photo; notes] init)
    as (Heq & _ & Hsome).
  split; [exact Heq|]. split; [reflexivity|]. split; [reflexivity|].
  split.
  - apply Hsome. right. discriminate.
  - apply (proj1 (proj2 (handleFiles_drops_unsupported sample_loadAsync
                           [notes] init))).
    split; reflexivity.
Defined.

(** C8 (amended) at the state where [photo.JPG] is done but not selected:
    the download of the selection does nothing. *)
Lemma empty_export_is_silent_noop_witness :
  selectedItems st_done = []
  ∧ doneItems st_done ≠ []
  ∧ downloadSelectedZip st_done = Resolved st_done
  ∧ ¬ signals_failure st_done (downloadSelectedZip st_done)
  ∧ ∃ d, downloadAllZip st_done = Resolved (add_download d st_done).
Proof.
  split; [reflexivity|]. split; [discriminate|].
  destruct (empty_export_is_silent_noop st_done) as (Hsel & _ & _ & Hall).
  destruct (Hsel eq_refl) as [H1 H2].
  split; [exact H1|]. split; [exact H2|].
  apply Hall. discriminate.
Defined.

Lemma image_data_three_pixels : image_data 3 three_pixels.
Proof.
  split; [reflexivity|].
  unfold three_pixels. repeat (constructor; [lia|]). constructor.
Defined.

(** C2 at a 3 x 1 image: the transparent pixel in the middle comes out
    as it went in. *)
Lemma quantize_keeps_transparent_witness :
  image_data 3 three_pixels
  ∧ pixel three_pixels 1 = Some (1, 2, 3, 0)%Z
  ∧ ∃ out, convertToDmg (activePalette dmg) three_pixels = Some out
           ∧ pixel out 1 = Some (1, 2, 3, 0)%Z.
Proof.
  split; [exact image_data_three_pixels|]. split; [reflexivity|].
  destruct (quantize_keeps_transparent dmg 3 three_pixels
              image_data_three_pixels) as (out & Hout & _ & Hpx).
  exists out. split; [exact Hout|]. apply Hpx. reflexivity.
Defined.

(** C1 (amended) at the same image: the grey pixel gets entry [1] of the
    palette and the translucent white pixel entry [3], each keeping its
    alpha. *)
Lemma quantize_recolors_visible_witness :
  image_data 3 three_pixels
  ∧ pixel three_pixels 0 = Some (64, 64, 64, 255)%Z
  ∧ pixel three_pixels 2 = Some (255, 255, 255, 7)%Z
  ∧ ∃ out shade1 shade3,
      convertToDmg (activePalette dmg) three_pixels = Some out
      ∧ activePalette dmg !! Z.to_nat (code_band 64 64 64) = Some shade1
      ∧ pixel out 0
        = Some (shade_r shade1, shade_g shade1, shade_b shade1, 255%Z)
      ∧ activePalette dmg !! Z.to_nat (code_band 255 255 255) = Some shade3
      ∧ pixel out 2
        = Some (shade_r shade3, shade_g shade3, shade_b shade3, 7%Z).
Proof.
  split; [exact image_data_three_pixels|]. split; [reflexivity|].
  split; [reflexivity|].
  destruct (quantize_recolors_visible dmg 3 three_pixels
              image_data_three_pixels) as ((out & Hout & _ & Hpx) & _).
  destruct (Hpx 0%nat 64%Z 64%Z 64%Z 255%Z eq_refl eq_refl)
    as (shade1 & _ & Hs1 & Hp1).
  destruct (Hpx 2%nat 255%Z 255%Z 255%Z 7%Z eq_refl eq_refl)
    as (shade3 & _ & Hs3 & Hp3).
  exists out, shade1, shade3. repeat split; assumption.
Defined.

(* ===================================================================== *)
(** * Further properties: the life of a job, names, archives, images *)
(* ===================================================================== *)

Import Lifecycle.

(* ===================================================================== *)
(** * The lifecycle invariant *)
(* ===================================================================== *)

Section LifecycleFacts.

Implicit Types (st : App) (it : Item) (l : list Item).

(** Nothing is an element of the empty list or of the empty set. *)
Ltac by_empty :=
  match goal with
  | H : _ ∈ [] |- _ => inversion H
  | H : _ ∈ ∅ |- _ => by apply elem_of_empty in H
  end.

(** Two items of a list with unique identifiers that share an identifier
    are one item. *)
Lemma unique_by_id l it1 it2 :
  NoDup (map item_id l) → it1 ∈ l → it2 ∈ l → item_id it1 = item_id it2 →
  it1 = it2.
Proof.
  induction l as [|x l IH]; intros Hnd H1 H2 Heq; [inversion H1|].
  apply NoDup_cons in Hnd as [Hx Hnd].
  apply elem_of_cons in H1 as [->|H1], H2 as [->|H2]; [done| | |by apply IH].
  - exfalso. apply Hx. rewrite Heq. apply list_elem_of_fmap. by exists it2.
  - exfalso. apply Hx. rewrite <- Heq. apply list_elem_of_fmap. by exists it1.
Qed.

Lemma new_items_id_ge n files it :
  it ∈ new_items n files → (n ≤ item_id it)%nat.
Proof.
  intros Hit.
  assert (item_id it ∈ map item_id (new_items n files)) as Hk
    by (apply list_elem_of_fmap; by exists it).
  rewrite new_items_ids in Hk. apply list_elem_of_In, in_seq in Hk. lia.
Qed.

Lemma new_items_cleared n files it :
  it ∈ new_items n files → fields_ok it ∧ item_blobUrl it = None.
Proof.
  revert n. induction files as [|f fs IH]; intros n; simpl.
  - intros H. inversion H.
  - intros [->|H]%elem_of_cons; [by repeat split|]. by apply (IH (S n)).
Qed.

Lemma mark_processing_id k it : item_id (mark_processing k it) = item_id it.
Proof. unfold mark_processing. by destruct (decide _). Qed.

Lemma mark_processing_blobUrl k it :
  item_blobUrl (mark_processing k it) = item_blobUrl it.
Proof. unfold mark_processing. by destruct (decide _). Qed.

Lemma apply_error_id k msg it : item_id (apply_error k msg it) = item_id it.
Proof. unfold apply_error. by destruct (decide _). Qed.

Lemma apply_error_blobUrl k msg it :
  item_blobUrl (apply_error k msg it) = item_blobUrl it.
Proof. unfold apply_error. by destruct (decide _). Qed.

Lemma apply_done_id k u w h it : item_id (apply_done k u w h it) = item_id it.
Proof. unfold apply_done. by destruct (decide _). Qed.

Lemma fields_ok_with_selected b it : fields_ok it → fields_ok (with_selected b it).
Proof. done. Qed.

Lemma lifecycle_inv_init : lifecycle_inv init.
Proof.
  split; simpl; try done; intros; by_empty.
Qed.

(** An update that maps over the list and changes neither the status nor
    the result fields keeps the invariant. *)
Lemma lifecycle_inv_relabel (f : Item → Item) st :
  (∀ it, item_id (f it) = item_id it ∧ item_status (f it) = item_status it
         ∧ item_blobUrl (f it) = item_blobUrl it
         ∧ (fields_ok it → fields_ok (f it))) →
  lifecycle_inv st → lifecycle_inv (set_items (map f) st).
Proof.
  intros Hf [H1 H2 H3 H4 H5 H6 H7]. split; simpl; try done.
  - intros it (it0 & -> & Hit0)%elem_of_map_item.
    apply Hf. by apply H1.
  - intros p it Hc Hs (it0 & -> & Hit0)%elem_of_map_item Hid.
    destruct (Hf it0) as (Hi & Hst & _). rewrite Hst. rewrite Hi in Hid.
    by apply (H2 p).
  - intros it u (it0 & -> & Hit0)%elem_of_map_item Hu.
    destruct (Hf it0) as (_ & _ & Hb & _). rewrite Hb in Hu. by apply (H5 it0).
  - intros it1 it2 u (a & -> & Ha)%elem_of_map_item
      (b & -> & Hb)%elem_of_map_item Hu1 Hu2.
    destruct (Hf a) as (Hia & _ & Hba & _), (Hf b) as (Hib & _ & Hbb & _).
    rewrite Hia, Hib. rewrite Hba in Hu1. rewrite Hbb in Hu2.
    by apply (H7 a b u).
Qed.

Lemma lifecycle_inv_downloadZip set gn dn st :
  lifecycle_inv st → lifecycle_inv (state_of (downloadZip set gn dn st)).
Proof.
  intros [H1 H2 H3 H4 H5 H6 H7]. unfold downloadZip.
  case_bool_decide; simpl; by split.
Qed.

Lemma lifecycle_inv_step st st' :
  queue_inv st → lifecycle_inv st → step st st' → lifecycle_inv st'.
Proof.
  intros [Hnd Hfresh Hidle Hproc] Hlc Hstep.
  pose proof Hlc as [H1 H2 H3 H4 H5 H6 H7].
  destruct Hstep as
    [files st|text st|st st' Hw|w h st p Hc Hs|msg st p Hc Hs|st p Hc Hs
    |st|st|id st|st|st|st|st].
  - (* enqueueFiles *)
    split; simpl.
    + intros it [Hit|Hit]%elem_of_app; [by apply H1|].
      by apply new_items_cleared in Hit as [? _].
    + intros p it Hc Hs [Hit|Hit]%elem_of_app Hid; [by apply (H2 p)|].
      apply new_items_id_ge in Hit. specialize (H3 p Hc). lia.
    + intros p Hc. specialize (H3 p Hc). lia.
    + done.
    + intros it u [Hit|Hit]%elem_of_app Hu; [by apply (H5 it)|].
      apply new_items_cleared in Hit as [_ Hn]. congruence.
    + done.
    + intros it1 it2 u [Ha|Ha]%elem_of_app [Hb|Hb]%elem_of_app Hu1 Hu2.
      * by apply (H7 it1 it2 u).
      * apply new_items_cleared in Hb as [_ Hn]. congruence.
      * apply new_items_cleared in Ha as [_ Hn]. congruence.
      * apply new_items_cleared in Hb as [_ Hn]. congruence.
  - (* setToast *)
    by split.
  - (* the watcher picks *)
    unfold watcher in Hw. destruct (busy st) eqn:Hb; [discriminate|].
    destruct (next_queued (items st)) as [next|] eqn:Hn; [|discriminate].
    injection Hw as <-.
    apply next_queued_Some in Hn as [Hnext Hq].
    split; simpl.
    + intros it (it0 & -> & Hit0)%elem_of_map_item.
      unfold mark_processing. case_decide as Hid; [|by apply H1].
      assert (it0 = next) as -> by by apply (unique_by_id (items st)).
      pose proof (H1 next Hnext) as Hok. unfold fields_ok in *.
      rewrite Hq in Hok. exact Hok.
    + intros p it [= <-] _ (it0 & -> & Hit0)%elem_of_map_item Hid.
      simpl in Hid. unfold mark_processing in *.
      case_decide as Hid'; [by right|]. simpl in *. done.
    + intros p [= <-]. simpl. by apply Hfresh.
    + discriminate.
    + intros it u (it0 & -> & Hit0)%elem_of_map_item Hu.
      apply (H5 it0); [done|]. by rewrite mark_processing_blobUrl in Hu.
    + done.
    + intros it1 it2 u (a & -> & Ha)%elem_of_map_item
        (b & -> & Hb')%elem_of_map_item Hu1 Hu2.
      rewrite mark_processing_blobUrl in Hu1, Hu2.
      rewrite !mark_processing_id. by apply (H7 a b u).
  - (* .then *)
    assert (Hcl : ∀ it, it ∈ items st → item_id it = pend_id p → cleared it).
    { intros it Hit Hid. pose proof (H1 it Hit) as Hok.
      unfold fields_ok in Hok.
      by destruct (H2 p it Hc Hs Hit Hid) as [Hst|Hst]; rewrite Hst in Hok. }
    unfold conversion_then. rewrite Hc. split; simpl.
    + intros it (it0 & -> & Hit0)%elem_of_map_item.
      unfold apply_done. case_decide as Hid; [|by apply H1].
      destruct (Hcl it0 Hit0 Hid) as (_ & _ & _ & He).
      unfold fields_ok. simpl. by eauto.
    + intros p' it [= <-]. simpl. discriminate.
    + intros p' [= <-]. simpl. by apply H3.
    + discriminate.
    + intros it u (it0 & -> & Hit0)%elem_of_map_item Hu.
      unfold revoke_matching. apply elem_of_revoke_all. split.
      * unfold apply_done in Hu. case_decide as Hid; simpl in Hu.
        -- injection Hu as <-. apply elem_of_union_r. by apply elem_of_singleton.
        -- apply elem_of_union_l. by apply (H5 it0).
      * intros it' [Hid' Hit']%list_elem_of_filter.
        destruct (Hcl it' Hit' Hid') as (Hn & _). by rewrite Hn.
    + intros u Hu. unfold revoke_matching in Hu.
      apply elem_of_revoke_all in Hu as [Hu _].
      apply elem_of_union in Hu as [Hu|Hu%elem_of_singleton].
      * specialize (H6 u Hu). lia.
      * lia.
    + intros it1 it2 u (a & -> & Ha)%elem_of_map_item
        (b & -> & Hb)%elem_of_map_item Hu1 Hu2.
      unfold apply_done in *.
      destruct (decide (item_id a = pend_id p)) as [Hia|Hia],
               (decide (item_id b = pend_id p)) as [Hib|Hib]; simpl in *.
      * congruence.
      * injection Hu1 as <-. pose proof (H6 _ (H5 b _ Hb Hu2)). lia.
      * injection Hu2 as <-. pose proof (H6 _ (H5 a _ Ha Hu1)). lia.
      * by apply (H7 a b u).
  - (* .catch *)
    assert (Hcl : ∀ it, it ∈ items st → item_id it = pend_id p → cleared it).
    { intros it Hit Hid. pose proof (H1 it Hit) as Hok.
      unfold fields_ok in Hok.
      by destruct (H2 p it Hc Hs Hit Hid) as [Hst|Hst]; rewrite Hst in Hok. }
    unfold conversion_catch. rewrite Hc. split; simpl.
    + intros it (it0 & -> & Hit0)%elem_of_map_item.
      unfold apply_error. case_decide as Hid; [|by apply H1].
      destruct (Hcl it0 Hit0 Hid) as (Hb & Hw & Hh & _).
      unfold fields_ok. simpl. by eauto.
    + intros p' it [= <-]. simpl. discriminate.
    + intros p' [= <-]. simpl. by apply H3.
    + discriminate.
    + intros it u (it0 & -> & Hit0)%elem_of_map_item Hu.
      apply (H5 it0); [done|]. by rewrite apply_error_blobUrl in Hu.
    + done.
    + intros it1 it2 u (a & -> & Ha)%elem_of_map_item
        (b & -> & Hb)%elem_of_map_item Hu1 Hu2.
      rewrite apply_error_blobUrl in Hu1, Hu2.
      rewrite !apply_error_id. by apply (H7 a b u).
  - (* .finally *)
    split; simpl; try done.
  - (* the palette toggle *)
    split; simpl.
    + intros it (it0 & -> & Hit0)%elem_of_map_item. by repeat split.
    + intros p it _ _ (it0 & -> & Hit0)%elem_of_map_item _. by left.
    + done.
    + done.
    + by intros it u (it0 & -> & Hit0)%elem_of_map_item Hu.
    + intros u Hu. apply elem_of_revoke_all in Hu as [Hu _]. by apply H6.
    + by intros it1 it2 u (a & -> & Ha)%elem_of_map_item _ Hu.
  - (* clearAll *)
    split; simpl; try done; try (intros; by_empty).
    intros u Hu. apply elem_of_revoke_all in Hu as [Hu _]. by apply H6.
  - (* toggleSelected *)
    apply lifecycle_inv_relabel; [|done]. intros it. by case_decide.
  - (* selectAll *)
    apply lifecycle_inv_relabel; [|done]. intros it. by case_decide.
  - (* clearSelection *)
    by apply lifecycle_inv_relabel.
  - by apply lifecycle_inv_downloadZip.
  - by apply lifecycle_inv_downloadZip.
Qed.

Lemma invariants_reachable st : reachable st → queue_inv st ∧ lifecycle_inv st.
Proof.
  unfold reachable. revert st.
  refine (rtc_ind_r (R := step) (λ st, queue_inv st ∧ lifecycle_inv st) init
            (conj queue_inv_init lifecycle_inv_init) _).
  intros y z _ Hyz [IH1 IH2]. split.
  - by apply (queue_inv_step y z).
  - by apply (lifecycle_inv_step y z).
Qed.

End LifecycleFacts.

(* ===================================================================== *)
(** * What reachable states keep *)
(* ===================================================================== *)

(** X1.  In every reachable state a job has a result URL exactly when it
    is [done], a width and a height exactly when it is [done], and an
    error message exactly when its status is [error]. *)
Theorem result_fields_follow_status st it :
  reachable st → it ∈ items st →
  (is_Some (item_blobUrl it) ↔ item_status it = done)
  ∧ (is_Some (item_width it) ↔ item_status it = done)
  ∧ (is_Some (item_height it) ↔ item_status it = done)
  ∧ (is_Some (item_error it) ↔ item_status it = error).
Proof.
  intros Hr Hit. destruct (invariants_reachable st Hr) as [_ [H1 _ _ _ _ _ _]].
  specialize (H1 it Hit). unfold fields_ok, cleared in H1.
  destruct (item_status it); destruct H1 as (Hb & Hw & Hh & He);
    rewrite ?Hb, ?Hw, ?He, ?Hh; repeat split;
    try done; try (intros [? [=]]); try (intros [=]).
Qed.

(** X2.  In every reachable state the object URL a job holds is live (it
    has not been revoked), and no two jobs hold the same URL. *)
Theorem held_urls_are_live st :
  reachable st →
  (∀ it u, it ∈ items st → item_blobUrl it = Some u → u ∈ live_urls st)
  ∧ (∀ it1 it2 u, it1 ∈ items st → it2 ∈ items st →
       item_blobUrl it1 = Some u → item_blobUrl it2 = Some u → it1 = it2).
Proof.
  intros Hr.
  destruct (invariants_reachable st Hr) as [[Hnd _ _ _] [_ _ _ _ H5 _ H7]].
  split; [exact H5|].
  intros it1 it2 u Hi1 Hi2 Hu1 Hu2.
  apply (unique_by_id (items st)); [done..|]. by apply (H7 it1 it2 u).
Qed.

(** X3.  In every reachable state the processor is busy exactly while a
    conversion is in flight, and while it is idle no job is [processing]. *)
Theorem busy_while_converting st :
  reachable st →
  (busy st = true ↔ is_Some (conversion st))
  ∧ (busy st = false → ∀ it, it ∈ items st → item_status it ≠ processing).
Proof.
  intros Hr.
  destruct (invariants_reachable st Hr) as [[_ _ Hidle Hproc] [_ _ _ Hbusy _ _ _]].
  split; [split|].
  - intros Hb. destruct (conversion st) eqn:Hc; [done|].
    rewrite (Hbusy eq_refl) in Hb. discriminate.
  - intros [p Hp]. destruct (busy st) eqn:Hb; [done|].
    rewrite (Hidle eq_refl) in Hp. discriminate.
  - intros Hb it Hit Hst. destruct (Hproc it Hit Hst) as (p & Hp & _).
    rewrite (Hidle Hb) in Hp. discriminate.
Qed.

(* ===================================================================== *)
(** * The order of processing *)
(* ===================================================================== *)

Section Order.

Implicit Types (st : App) (it : Item) (l : list Item).

Lemma find_first {A} (f : A → bool) (xs : list A) x :
  find f xs = Some x →
  ∃ xs1 xs2, xs = (xs1 ++ x :: xs2)%list ∧ f x = true
             ∧ ∀ y, y ∈ xs1 → f y = false.
Proof.
  induction xs as [|y xs IH]; simpl; [discriminate|].
  destruct (f y) eqn:Hy.
  - intros [= ->]. exists [], xs. split; [done|]. split; [done|].
    intros z Hz. inversion Hz.
  - intros (xs1 & xs2 & -> & Hx & Hxs1)%IH. exists (y :: xs1), xs2.
    split; [done|]. split; [done|].
    intros z [->|Hz]%elem_of_cons; [done|by apply Hxs1].
Qed.

Lemma map_id_on {A} (f : A → A) (xs : list A) :
  (∀ x, x ∈ xs → f x = x) → map f xs = xs.
Proof.
  induction xs as [|x xs IH]; intros Hf; simpl; [done|].
  rewrite Hf by left. rewrite IH; [done|].
  intros y Hy. apply Hf. by right.
Qed.

End Order.

(** X4.  The watcher takes the jobs in list order: when it picks, the job
    it marks [processing] is the first queued one, every job before it is
    not queued, no other job changes, the processor becomes busy and the
    conversion is started with the palette mode of that moment. *)
Theorem watcher_picks_first_queued st st' :
  reachable st → watcher st = Some st' →
  ∃ before next after,
    items st = (before ++ next :: after)%list
    ∧ item_status next = queued
    ∧ (∀ it, it ∈ before → item_status it ≠ queued)
    ∧ items st' = (before ++ with_status processing next :: after)%list
    ∧ busy st = false ∧ busy st' = true
    ∧ conversion st'
      = Some (mkPending (item_id next) (item_file next) (paletteMode st) false).
Proof.
  intros Hr Hw. destruct (invariants_reachable st Hr) as [[Hnd _ _ _] _].
  unfold watcher in Hw. destruct (busy st) eqn:Hb; [discriminate|].
  destruct (next_queued (items st)) as [next|] eqn:Hn; [|discriminate].
  injection Hw as <-. unfold next_queued in Hn.
  apply find_first in Hn as (before & after & Heq & Hq & Hbefore).
  apply bool_decide_eq_true in Hq.
  exists before, next, after. split; [done|]. split; [done|]. split.
  { intros it Hit Hst. specialize (Hbefore it Hit).
    by apply bool_decide_eq_false in Hbefore. }
  split; [|done]. simpl. rewrite Heq in Hnd |- *.
  rewrite map_app in Hnd. simpl in Hnd.
  apply NoDup_app in Hnd as (_ & Hdisj & Hnd).
  apply NoDup_cons in Hnd as [Hafter _].
  rewrite map_app. simpl. f_equal; [|f_equal].
  - apply map_id_on. intros it Hit. unfold mark_processing.
    case_decide as Hid; [|done]. exfalso.
    apply (Hdisj (item_id it)); [apply list_elem_of_fmap; by exists it|].
    rewrite Hid. left.
  - unfold mark_processing. by rewrite decide_True.
  - apply map_id_on. intros it Hit. unfold mark_processing.
    case_decide as Hid; [|done]. exfalso.
    apply Hafter. rewrite <- Hid. apply list_elem_of_fmap. by exists it.
Qed.

(* ===================================================================== *)
(** * The queue drains *)
(* ===================================================================== *)

Section Drain.

Implicit Types (st : App) (it : Item) (l : list Item).

Lemma runs_step st st' : runs st st' → step st st'.
Proof.
  intros [st0 st1 Hw|w h st0 p Hc Hs|st0 p Hc Hs].
  - by apply step_pick.
  - by apply (step_complete w h st0 p).
  - by apply (step_idle st0 p).
Qed.

Lemma runs_identity st st' :
  runs st st' → map identity_fields (items st') = map identity_fields (items st).
Proof.
  intros [st0 st1 Hw|w h st0 p Hc Hs|st0 p Hc Hs].
  - unfold watcher in Hw. destruct (busy st0); [discriminate|].
    destruct (next_queued (items st0)); [|discriminate].
    injection Hw as <-. apply map_identity_fields, identity_mark_processing.
  - unfold conversion_then. rewrite Hc.
    apply map_identity_fields, identity_apply_done.
  - done.
Qed.

Lemma count_status_map_le (g : Item → Item) s l :
  (∀ it, item_status (g it) = s → item_status it = s) →
  (count_status s (map g l) ≤ count_status s l)%nat.
Proof.
  intros Hg. unfold count_status. induction l as [|y l IH]; simpl; [done|].
  rewrite !filter_cons. destruct (decide (item_status (g y) = s)) as [Hy|Hy].
  - rewrite decide_True by by apply Hg. simpl. lia.
  - case_decide; simpl; lia.
Qed.

Lemma count_status_map_lt (g : Item → Item) s l x :
  (∀ it, item_status (g it) = s → item_status it = s) →
  x ∈ l → item_status x = s → item_status (g x) ≠ s →
  (count_status s (map g l) < count_status s l)%nat.
Proof.
  intros Hg Hx Hs Hgx. induction l as [|y l IH]; [inversion Hx|].
  pose proof (count_status_map_le g s l Hg) as Hle.
  unfold count_status in *. simpl. rewrite !filter_cons.
  apply elem_of_cons in Hx as [<-|Hx].
  - rewrite decide_False by done. rewrite decide_True by done. simpl. lia.
  - specialize (IH Hx).
    destruct (decide (item_status (g y) = s)) as [Hy|Hy].
    + rewrite decide_True by by apply Hg. simpl. lia.
    + case_decide; simpl; lia.
Qed.

Lemma count_status_0 s l :
  count_status s l = 0%nat → ∀ it, it ∈ l → item_status it ≠ s.
Proof.
  unfold count_status. intros Hc it Hit Hs.
  assert (it ∈ filter (λ it0, item_status it0 = s) l) as Hin
    by by apply list_elem_of_filter.
  apply nil_length_inv in Hc. rewrite Hc in Hin. inversion Hin.
Qed.

Lemma status_after_round k u w h it :
  item_status (apply_done k u w h (mark_processing k it))
  = if decide (item_id it = k) then done else item_status it.
Proof.
  unfold apply_done, mark_processing.
  destruct (decide (item_id it = k)) as [Hid|Hid]; simpl.
  - by rewrite decide_True.
  - by rewrite decide_False.
Qed.

(** One round from an idle state with a queued job: pick, complete, go
    idle; one queued job less. *)
Lemma drain_round st :
  queue_inv st → lifecycle_inv st → busy st = false →
  queuedCount st ≠ 0%nat →
  ∃ st', rtc runs st st' ∧ queue_inv st' ∧ lifecycle_inv st'
         ∧ busy st' = false ∧ (queuedCount st' < queuedCount st)%nat.
Proof.
  intros Hq Hl Hb Hn.
  destruct (next_queued (items st)) as [next|] eqn:Hnext.
  2: { exfalso. apply Hn. unfold queuedCount, count_status.
       destruct (filter _ (items st)) as [|it rest] eqn:Hf; [done|].
       assert (it ∈ filter (λ it0, item_status it0 = queued) (items st))
         as [Hst Hin]%list_elem_of_filter by (rewrite Hf; left).
       unfold next_queued in Hnext.
       pose proof (find_none _ _ Hnext it (proj1 (list_elem_of_In _ _) Hin))
         as Hnone.
       by apply bool_decide_eq_false in Hnone. }
  pose proof (next_queued_Some _ _ Hnext) as [Hin Hst].
  set (p := mkPending (item_id next) (item_file next) (paletteMode st) false).
  set (st1 := set_conversion (Some p)
                (set_items (map (mark_processing (item_id next)))
                           (set_busy true st))).
  assert (Hw : watcher st = Some st1) by (unfold watcher; by rewrite Hb, Hnext).
  set (st2 := conversion_then 1 1 st1).
  set (st3 := conversion_finally st2).
  assert (H1 : step st st1) by by apply step_pick.
  assert (H2 : step st1 st2) by by apply (step_complete 1 1 st1 p).
  assert (H3 : step st2 st3).
  { apply (step_idle st2 (mkPending (item_id next) (item_file next)
                                     (paletteMode st) true)); done. }
  pose proof (queue_inv_step _ _ Hq H1) as Hq1.
  pose proof (lifecycle_inv_step _ _ Hq Hl H1) as Hl1.
  pose proof (queue_inv_step _ _ Hq1 H2) as Hq2.
  pose proof (lifecycle_inv_step _ _ Hq1 Hl1 H2) as Hl2.
  exists st3. split; [|split; [|split; [|split]]].
  - eapply rtc_l; [by apply runs_pick|].
    eapply rtc_l; [by apply (runs_complete 1 1 st1 p)|].
    eapply rtc_l; [|apply rtc_refl].
    by apply (runs_idle st2 (mkPending (item_id next) (item_file next)
                                       (paletteMode st) true)).
  - by apply (queue_inv_step st2).
  - by apply (lifecycle_inv_step st2).
  - done.
  - unfold queuedCount. simpl. rewrite map_map.
    apply (count_status_map_lt _ _ _ next); [|done|done|].
    + intros it. rewrite status_after_round. by case_decide.
    + rewrite status_after_round. by rewrite decide_True.
Qed.

Lemma drain_idle n : ∀ st,
  queue_inv st → lifecycle_inv st → busy st = false →
  (queuedCount st ≤ n)%nat →
  ∃ st', rtc runs st st' ∧ all_settled st' ∧ busy st' = false
         ∧ queue_inv st' ∧ lifecycle_inv st'.
Proof.
  induction n as [|n IH]; intros st Hq Hl Hb Hn.
  - exists st. split; [apply rtc_refl|]. split; [|done].
    intros it Hit.
    assert (item_status it ≠ queued)
      by (apply (count_status_0 queued (items st)); [unfold queuedCount in Hn; lia|done]).
    assert (item_status it ≠ processing).
    { intros Hst. destruct Hq as [_ _ Hidle Hproc].
      destruct (Hproc it Hit Hst) as (p & Hp & _).
      rewrite (Hidle Hb) in Hp. discriminate. }
    destruct (item_status it); tauto.
  - destruct (decide (queuedCount st = 0%nat)) as [Hz|Hnz].
    + apply (IH st); [done..|lia].
    + destruct (drain_round st Hq Hl Hb Hnz) as (st1 & Hr & Hq1 & Hl1 & Hb1 & Hlt).
      destruct (IH st1 Hq1 Hl1 Hb1) as (st' & Hr' & Hs & Hb' & Hq' & Hl'); [lia|].
      exists st'. split; [by etrans|done].
Qed.

(** From any state that keeps the invariants the processor can be brought
    to idle by the transitions of [runs]. *)
Lemma settle_conversion st :
  queue_inv st → lifecycle_inv st →
  ∃ st', rtc runs st st' ∧ busy st' = false ∧ queue_inv st' ∧ lifecycle_inv st'.
Proof.
  intros Hq Hl. destruct (conversion st) as [p|] eqn:Hc.
  - destruct (pend_settled p) eqn:Hs.
    + exists (conversion_finally st).
      assert (step st (conversion_finally st)) by by apply (step_idle st p).
      split; [apply rtc_once; by apply (runs_idle st p)|]. split; [done|].
      split; [by apply (queue_inv_step st)|by apply (lifecycle_inv_step st)].
    + set (st1 := conversion_then 1 1 st).
      assert (H1 : step st st1) by by apply (step_complete 1 1 st p).
      assert (Hc1 : conversion st1
                    = Some (mkPending (pend_id p) (pend_file p) (pend_palette p) true)).
      { unfold st1, conversion_then. by rewrite Hc. }
      assert (H2 : step st1 (conversion_finally st1))
        by by eapply step_idle.
      pose proof (queue_inv_step _ _ Hq H1) as Hq1.
      pose proof (lifecycle_inv_step _ _ Hq Hl H1) as Hl1.
      exists (conversion_finally st1).
      split; [|split; [done|split]].
      * eapply rtc_l; [by apply (runs_complete 1 1 st p)|].
        apply rtc_once. by eapply runs_idle.
      * by apply (queue_inv_step st1).
      * by apply (lifecycle_inv_step st1).
  - exists st. split; [apply rtc_refl|]. split; [|done].
    by apply (lc_busy st Hl).
Qed.

Lemma rtc_runs_identity st st' :
  rtc runs st st' →
  map identity_fields (items st') = map identity_fields (items st).
Proof.
  induction 1 as [|x y z Hxy _ IH]; [done|].
  rewrite IH. by apply runs_identity.
Qed.

Lemma rtc_runs_reachable st st' : reachable st → rtc runs st st' → reachable st'.
Proof.
  intros Hr. induction 1 as [|x y z Hxy _ IH]; [done|].
  apply IH. eapply rtc_r; [exact Hr|]. by apply runs_step.
Qed.

End Drain.

(** X5.  The queue drains.  From every reachable state, the watcher
    picking, the conversions completing and the processor going idle lead,
    with no further user action, to a state where the processor is idle
    and every job is done or failed; the jobs are the same, in the same
    order, with their names, files and selection. *)
Theorem queue_drains st :
  reachable st →
  ∃ st', rtc runs st st' ∧ reachable st'
         ∧ all_settled st' ∧ busy st' = false ∧ queuedCount st' = 0%nat
         ∧ map identity_fields (items st') = map identity_fields (items st).
Proof.
  intros Hr. destruct (invariants_reachable st Hr) as [Hq Hl].
  destruct (settle_conversion st Hq Hl) as (st1 & Hr1 & Hb1 & Hq1 & Hl1).
  destruct (drain_idle (queuedCount st1) st1 Hq1 Hl1 Hb1 (le_n _))
    as (st2 & Hr2 & Hs & Hb2 & _ & _).
  assert (Hrun : rtc runs st st2) by by etrans.
  exists st2. split; [done|]. split; [by apply (rtc_runs_reachable st)|].
  split; [done|]. split; [done|]. split; [|by apply rtc_runs_identity].
  unfold queuedCount, count_status.
  destruct (filter _ (items st2)) as [|it rest] eqn:Hf; [done|].
  assert (it ∈ filter (λ it0, item_status it0 = queued) (items st2))
    as [Hst Hin]%list_elem_of_filter by (rewrite Hf; left).
  destruct (Hs it Hin); congruence.
Qed.

(* ===================================================================== *)
(** * Results that arrive late *)
(* ===================================================================== *)

(** X6.  A result that lands after a palette toggle overrides the reset.
    If the watcher picks a job and the mode is toggled before the
    conversion completes, then after completion that job is [done] with the
    new object URL, although the conversion was started with the mode of
    before the toggle and the current mode is the other one; every other
    job is queued.  The job is not queued, so it is not converted again. *)
Theorem late_result_overrides_reset st st1 w h :
  watcher st = Some st1 →
  let st3 := conversion_then w h (togglePalette st1) in
  ∃ next,
    next_queued (items st) = Some next
    ∧ (∃ it, it ∈ items st3 ∧ item_id it = item_id next)
    ∧ (∀ it, it ∈ items st3 → item_id it = item_id next →
         item_status it = done ∧ item_blobUrl it = Some (next_url st)
         ∧ item_width it = Some w ∧ item_height it = Some h)
    ∧ (∀ it, it ∈ items st3 → item_id it ≠ item_id next →
         item_status it = queued)
    ∧ paletteMode st3 = flip (paletteMode st)
    ∧ conversion st3
      = Some (mkPending (item_id next) (item_file next) (paletteMode st) true).
Proof.
  intros Hw st3. unfold watcher in Hw. destruct (busy st); [discriminate|].
  destruct (next_queued (items st)) as [next|] eqn:Hn; [|discriminate].
  injection Hw as <-. exists next. split; [done|].
  apply next_queued_Some in Hn as [Hin _].
  assert (Hitems : items st3
            = map (λ it, apply_done (item_id next) (next_url st) w h
                           (reset_item (mark_processing (item_id next) it)))
                  (items st)).
  { unfold st3, conversion_then.
    cbn -[apply_done reset_item mark_processing]. rewrite !map_map. reflexivity. }
  rewrite Hitems. split; [|split; [|split; [|done]]].
  - eexists. split; [apply list_elem_of_fmap; by exists next|].
    rewrite apply_done_id. simpl. by rewrite mark_processing_id.
  - intros it (it0 & -> & Hit0)%elem_of_map_item Hid.
    rewrite apply_done_id in Hid. simpl in Hid.
    rewrite mark_processing_id in Hid.
    unfold apply_done. rewrite decide_True; [done|].
    simpl. by rewrite mark_processing_id.
  - intros it (it0 & -> & Hit0)%elem_of_map_item Hid.
    rewrite apply_done_id in Hid. simpl in Hid.
    rewrite mark_processing_id in Hid.
    unfold apply_done. rewrite decide_False; [done|].
    simpl. by rewrite mark_processing_id.
Qed.

Section Orphans.

Implicit Types (st : App) (it : Item) (l : list Item) (u : Url).

Lemma revoke_all_unheld l (live : gset Url) u :
  u ∈ live → (∀ it, it ∈ l → item_blobUrl it ≠ Some u) →
  u ∈ revoke_all l live.
Proof. intros Hu Hl. by apply elem_of_revoke_all. Qed.

Lemma orphan_relabel u st (f : Item → Item) :
  (∀ it, item_blobUrl (f it) = item_blobUrl it) →
  orphan u st → orphan u (set_items (map f) st).
Proof.
  intros Hf (Hlive & Hlt & Hfree). split; [done|]. split; [done|].
  simpl. intros it (it0 & -> & Hin)%list_elem_of_fmap.
  rewrite Hf. by apply Hfree.
Qed.

Lemma orphan_downloadZip u set g d st :
  orphan u st → orphan u (state_of (downloadZip set g d st)).
Proof.
  intros H. unfold downloadZip. by destruct (bool_decide _).
Qed.

Lemma orphan_step u st st' : orphan u st → step st st' → orphan u st'.
Proof.
  intros (Hlive & Hlt & Hfree) Hstep.
  destruct Hstep as
    [files st|text st|st st' Hw|w h st p Hc Hs|msg st p Hc Hs|st p Hc Hs
    |st|st|id st|st|st|st|st].
  - split; [done|]. split; [done|]. simpl.
    intros it [Hin|Hin]%elem_of_app; [by apply Hfree|].
    apply new_items_cleared in Hin as [_ ->]. done.
  - done.
  - unfold watcher in Hw. destruct (busy st); [done|].
    destruct (next_queued (items st)) as [next|]; [|done].
    injection Hw as <-. split; [done|]. split; [done|]. simpl.
    intros it (it0 & -> & Hin)%list_elem_of_fmap.
    rewrite mark_processing_blobUrl. by apply Hfree.
  - unfold conversion_then. rewrite Hc. split; [|split]; simpl.
    + unfold revoke_matching. apply revoke_all_unheld.
      * by apply elem_of_union_l.
      * intros it [_ Hin]%list_elem_of_filter. by apply Hfree.
    + lia.
    + intros it (it0 & -> & Hin)%list_elem_of_fmap. unfold apply_done.
      destruct (decide (item_id it0 = pend_id p)); simpl.
      * intros [= Heq]. lia.
      * by apply Hfree.
  - unfold conversion_catch. rewrite Hc. split; [done|]. split; [done|]. simpl.
    intros it (it0 & -> & Hin)%list_elem_of_fmap.
    rewrite apply_error_blobUrl. by apply Hfree.
  - done.
  - split; [|split]; simpl.
    + by apply revoke_all_unheld.
    + done.
    + by intros it (it0 & -> & Hin)%list_elem_of_fmap.
  - split; [|split]; simpl.
    + by apply revoke_all_unheld.
    + done.
    + intros it Hin. inversion Hin.
  - apply (orphan_relabel u st); [|done].
    intros it. by destruct (decide _).
  - apply (orphan_relabel u st); [|done].
    intros it. by destruct (decide _).
  - by apply (orphan_relabel u st).
  - by apply orphan_downloadZip.
  - by apply orphan_downloadZip.
Qed.

Lemma orphan_rtc u st st' : orphan u st → rtc step st st' → orphan u st'.
Proof.
  intros Ho Hrtc. induction Hrtc as [|st st1 st2 Hstep _ IH]; [done|].
  apply IH. by apply (orphan_step u st).
Qed.

End Orphans.

(** X7.  A result that lands after the list was cleared is dropped: the
    list stays empty, whether the conversion succeeded or failed, and the
    processor goes idle.  The object URL made for the successful result is
    leaked: in every state the application can go to from there it is
    still live, and no job holds it, so that no handler will ever revoke
    it. *)
Theorem late_result_after_clear st p w h msg :
  conversion st = Some p →
  let st2 := conversion_then w h (clearAll st) in
  items st2 = []
  ∧ items (conversion_catch msg (clearAll st)) = []
  ∧ busy (conversion_finally st2) = false
  ∧ (reachable st → pend_settled p = false → reachable st2)
  ∧ ∀ st', rtc step st2 st' →
      next_url st ∈ live_urls st'
      ∧ ∀ it, it ∈ items st' → item_blobUrl it ≠ Some (next_url st).
Proof.
  intros Hc st2.
  assert (Hst2 : st2 = mkApp [] (paletteMode st) (busy st)
                   (Some (mkPending (pend_id p) (pend_file p)
                                    (pend_palette p) true))
                   (toasts st)
                   (revoke_all (items st) (live_urls st) ∪ {[next_url st]})
                   (next_id st) (S (next_url st)) (downloads st)).
  { unfold st2, conversion_then. simpl. rewrite Hc. reflexivity. }
  split; [by rewrite Hst2|].
  split; [unfold conversion_catch; simpl; by rewrite Hc|].
  split; [done|]. split.
  - intros Hr Hs. apply (reachable_step (clearAll st)).
    + apply (reachable_step st); [done|apply step_clear].
    + by apply (step_complete w h (clearAll st) p).
  - intros st' Hrtc.
    assert (Ho : orphan (next_url st) st2).
    { rewrite Hst2. split; [|split]; simpl.
      - apply elem_of_union_r. by apply elem_of_singleton.
      - lia.
      - intros it Hin. inversion Hin. }
    destruct (orphan_rtc _ _ _ Ho Hrtc) as (Hlive & _ & Hfree). by split.
Qed.

(* ===================================================================== *)
(** * Toggling, selecting, counting *)
(* ===================================================================== *)

Section Selection.

Implicit Types (st : App) (it : Item) (l : list Item).

Lemma revoke_all_cleared l (live : gset Url) :
  (∀ it, it ∈ l → item_blobUrl it = None) → revoke_all l live = live.
Proof.
  unfold revoke_all. revert live.
  induction l as [|it l IH]; intros live Hl; simpl; [done|].
  rewrite (Hl it) by left. simpl. apply IH. intros it' Hit'. apply Hl. by right.
Qed.

Lemma with_selected_involutive it :
  with_selected (negb (item_selected (with_selected (negb (item_selected it)) it)))
                (with_selected (negb (item_selected it)) it) = it.
Proof. destruct it as [? ? ? ? ? ? ? ? ? sel]. simpl. by rewrite negb_involutive. Qed.

Lemma set_items_id st : set_items (λ l, l) st = st.
Proof. by destruct st. Qed.

Lemma length_filter_le {A} (P : A → Prop) `{!∀ x, Decision (P x)} (xs : list A) :
  (length (filter P xs) ≤ length xs)%nat.
Proof.
  induction xs as [|x xs IH]; simpl; [done|].
  rewrite filter_cons. case_decide; simpl; lia.
Qed.

Lemma filter_all {A} (P : A → Prop) `{!∀ x, Decision (P x)} (xs : list A) :
  (∀ x, x ∈ xs → P x) → filter P xs = xs.
Proof.
  induction xs as [|x xs IH]; intros Hall; [done|].
  rewrite filter_cons, decide_True by (apply Hall; left).
  f_equal. apply IH. intros y Hy. apply Hall. by right.
Qed.

Lemma filter_none {A} (P : A → Prop) `{!∀ x, Decision (P x)} (xs : list A) :
  (∀ x, x ∈ xs → ¬ P x) → filter P xs = [].
Proof.
  induction xs as [|x xs IH]; intros Hall; [done|].
  rewrite filter_cons, decide_False by (apply Hall; left).
  apply IH. intros y Hy. apply Hall. by right.
Qed.

Lemma filter_map_comm {A} (P : A → Prop) `{!∀ x, Decision (P x)}
    (f : A → A) (xs : list A) :
  (∀ x, P (f x) ↔ P x) → filter P (map f xs) = map f (filter P xs).
Proof.
  intros Hf. induction xs as [|x xs IH]; [done|]. simpl.
  rewrite !filter_cons. destruct (decide (P x)) as [Hx|Hx].
  - rewrite decide_True by by apply Hf. simpl. by rewrite IH.
  - rewrite decide_False by (by rewrite Hf). exact IH.
Qed.

End Selection.

(** X8.  Toggling the palette mode twice brings the mode back but not the
    results: the state is the one a reset alone would leave, with the
    original mode, every job queued and every former object URL revoked. *)
Theorem togglePalette_twice st :
  togglePalette (togglePalette st) = paletteReset st
  ∧ paletteMode (togglePalette (togglePalette st)) = paletteMode st
  ∧ items (togglePalette (togglePalette st)) = items (togglePalette st).
Proof.
  assert (Hmap : map reset_item (map reset_item (items st))
                 = map reset_item (items st)).
  { rewrite map_map. by apply map_ext. }
  assert (Hflip : flip (flip (paletteMode st)) = paletteMode st)
    by by destruct (paletteMode st).
  split; [|split; [exact Hflip|exact Hmap]].
  unfold togglePalette, paletteReset, set_live, set_items, set_paletteMode.
  simpl. rewrite Hmap, Hflip. f_equal.
  apply revoke_all_cleared.
  by intros it (it0 & -> & _)%elem_of_map_item.
Qed.

(** X9.  [selectAll] sets the flag of every done job and leaves every
    other job as it was, so that afterwards the selected jobs are the done
    jobs; [clearSelection] clears the flag of every job of the list, done
    or not; and in every state the counts shown satisfy
    selected [<=] done [<=] total. *)
Theorem selection_covers_done st :
  selectedItems (selectAll st) = doneItems (selectAll st)
  ∧ map item_id (doneItems (selectAll st)) = map item_id (doneItems st)
  ∧ (∀ it, it ∈ items st → item_status it ≠ done →
       it ∈ items (selectAll st))
  ∧ (∀ it, it ∈ items (clearSelection st) → item_selected it = false)
  ∧ map (with_selected false) (items (clearSelection st))
    = map (with_selected false) (items st)
  ∧ selectedItems (clearSelection st) = []
  ∧ (stats_selected (stats st) ≤ stats_done (stats st)
     ≤ stats_total (stats st))%nat.
Proof.
  set (f := λ it, if decide (item_status it = done)
                  then with_selected true it else it).
  assert (Hf : ∀ it, item_status (f it) = done ↔ item_status it = done).
  { intros it. unfold f. by case_decide. }
  assert (Hdone : doneItems (selectAll st) = map f (doneItems st)).
  { unfold doneItems. simpl. by apply filter_map_comm. }
  split; [|split; [|split; [|split; [|split; [|split]]]]].
  - unfold selectedItems. apply filter_all. rewrite Hdone.
    intros it (it0 & -> & [Hst _]%list_elem_of_filter)%elem_of_map_item.
    unfold f. by rewrite decide_True.
  - rewrite Hdone, map_map. apply map_ext. intros it. unfold f. by case_decide.
  - intros it Hit Hst. simpl. apply list_elem_of_fmap. exists it.
    split; [|done]. by rewrite decide_False.
  - simpl. by intros it (it0 & -> & _)%elem_of_map_item.
  - simpl. rewrite map_map. reflexivity.
  - unfold selectedItems. apply filter_none.
    intros it [_ (it0 & -> & _)%elem_of_map_item]%list_elem_of_filter. done.
  - simpl. unfold selectedItems, doneItems. split; apply length_filter_le.
Qed.

(** X10.  Ticking the box of a job twice leaves the state as it was, and
    one tick changes the flag of the jobs with that identifier only. *)
Theorem toggleSelected_twice id st :
  toggleSelected id (toggleSelected id st) = st
  ∧ (∀ it, it ∈ items st → item_id it ≠ id → it ∈ items (toggleSelected id st))
  ∧ map item_status (items (toggleSelected id st)) = map item_status (items st).
Proof.
  split; [|split].
  - unfold toggleSelected, set_items. simpl. rewrite map_map.
    rewrite (map_ext _ (λ it, it)), map_id; [by destruct st|].
    intros it. destruct (decide (item_id it = id)) as [Hid|Hid]; simpl.
    + rewrite decide_True by done. apply with_selected_involutive.
    + by rewrite decide_False.
  - intros it Hit Hid. simpl. apply list_elem_of_fmap. exists it.
    split; [|done]. by rewrite decide_False.
  - simpl. rewrite map_map. apply map_ext. intros it. by case_decide.
Qed.

(* ===================================================================== *)
(** * The archive of a reachable state *)
(* ===================================================================== *)

Section Archive.

Implicit Types (st : App) (it : Item) (l : list Item).

Lemma zip_files_all mode l :
  (∀ it, it ∈ l → is_Some (item_blobUrl it)) →
  map fst (zip_files mode l) = map (λ it, exportName mode (item_name it)) l
  ∧ map Some (map snd (zip_files mode l)) = map item_blobUrl l.
Proof.
  induction l as [|it l IH]; intros Hl; simpl; [done|].
  destruct (Hl it) as [u Hu]; [left|]. rewrite Hu. simpl.
  destruct IH as [IH1 IH2]; [intros it' Hit'; apply Hl; by right|].
  by rewrite IH1, IH2.
Qed.

End Archive.


(* ===================================================================== *)
(** * More about file names *)
(* ===================================================================== *)

Section MoreNames.

Lemma lower_ascii_idem c : lower_ascii (lower_ascii c) = lower_ascii c.
Proof. destruct c as [[] [] [] [] [] [] [] []]; reflexivity. Qed.

Lemma toLowerCase_idem s : toLowerCase (toLowerCase s) = toLowerCase s.
Proof.
  induction s as [|c s IH]; simpl; [done|]. by rewrite lower_ascii_idem, IH.
Qed.

Lemma has_dot_after_last_dot s : has_dot (after_last_dot s) = false.
Proof.
  induction s as [|c s IH]; simpl; [done|].
  destruct (has_dot s) eqn:Hs; [done|]. by destruct (Ascii.eqb c dot).
Qed.

Lemma around_last_dot s :
  has_dot s = true →
  s = before_last_dot s ++ String dot (after_last_dot s).
Proof.
  induction s as [|c s IH]; simpl; [discriminate|].
  destruct (has_dot s) eqn:Hs.
  - intros _.
    change (String c s
            = String c (before_last_dot s ++ String dot (after_last_dot s))).
    f_equal. by apply IH.
  - rewrite orb_false_r. intros Hc. rewrite Hc. simpl.
    apply Ascii.eqb_eq in Hc. by subst c.
Qed.

Lemma append_cons c s t : String c s ++ t = String c (s ++ t).
Proof. reflexivity. Qed.

Lemma append_length s t :
  String.length (s ++ t) = (String.length s + String.length t)%nat.
Proof.
  induction s as [|c s IH]; [done|].
  rewrite append_cons. simpl. by rewrite IH.
Qed.

(** Two strings with a common ending are equal when what precedes it is. *)
Lemma append_cancel_r s t x : s ++ x = t ++ x → s = t.
Proof.
  revert t. induction s as [|c s IH]; intros [|d t] Heq.
  - done.
  - apply (f_equal String.length) in Heq.
    rewrite !append_length in Heq. simpl in Heq. lia.
  - apply (f_equal String.length) in Heq.
    rewrite !append_length in Heq. simpl in Heq. lia.
  - rewrite !append_cons in Heq. injection Heq as -> Heq.
    f_equal. by apply IH.
Qed.

Lemma suffixes_differ s t : s ++ "-gs.png" ≠ t ++ "-dmg.png".
Proof.
  revert t. induction s as [|c s IH]; intros t Heq.
  - apply (f_equal String.length) in Heq. rewrite !append_length in Heq.
    simpl in Heq. lia.
  - destruct t as [|d t].
    + rewrite append_cons in Heq. change ("" ++ "-dmg.png") with "-dmg.png" in Heq.
      injection Heq as -> Heq.
      destruct s as [|c' s].
      * change ("" ++ "-gs.png") with "-gs.png" in Heq. discriminate.
      * apply (f_equal String.length) in Heq.
        rewrite !append_length in Heq. simpl in Heq. lia.
    + rewrite !append_cons in Heq. injection Heq as _ Heq. by apply (IH t).
Qed.

End MoreNames.

Section Calls.

Lemma NoDup_map_iff {A B C} (f : A → B) (g : A → C) (l : list A) :
  (∀ x y, f x = f y ↔ g x = g y) →
  NoDup (map f l) ↔ NoDup (map g l).
Proof.
  intros Hfg. induction l as [|x l IH]; simpl.
  - split; intros _; constructor.
  - rewrite !NoDup_cons, IH.
    assert (f x ∈ map f l ↔ g x ∈ map g l) as ->; [|done].
    split; intros (y & Heq & Hin)%list_elem_of_fmap;
      apply list_elem_of_fmap; exists y; (split; [|done]); by apply Hfg.
Qed.

Lemma exportName_eq_iff mode a b :
  exportName mode a = exportName mode b ↔ baseName a = baseName b.
Proof.
  unfold exportName. split; [|by intros ->].
  intros Heq. by apply append_cancel_r in Heq.
Qed.

End Calls.

(** X11.  In every reachable state with at least one done job, "Download
    all" hands the browser one archive, named after the current mode,
    filled by exactly one call [zip.file(name, blob)] per done job, in list
    order, none skipped; the call of a job has the export name of that job
    and the content read from the live object URL of that job.  The names
    of the calls are pairwise different exactly when the base names of the
    done jobs are: with two done jobs of one base name, two calls are made
    under one name. *)
Theorem downloadAllZip_one_call_per_job st :
  reachable st → doneItems st ≠ [] →
  ∃ d,
    downloadAllZip st = Resolved (add_download d st)
    ∧ dl_name d = (match paletteMode st with
                   | gray => "img2dmg-all-gs.zip"
                   | dmg => "img2dmg-all.zip"
                   end)
    ∧ map fst (dl_entries d)
      = map (λ it, exportName (paletteMode st) (item_name it)) (doneItems st)
    ∧ map Some (map snd (dl_entries d)) = map item_blobUrl (doneItems st)
    ∧ (∀ u, u ∈ map snd (dl_entries d) → u ∈ live_urls st)
    ∧ (NoDup (map fst (dl_entries d))
       ↔ NoDup (map (λ it, baseName (item_name it)) (doneItems st))).
Proof.
  intros Hr Hne.
  destruct (invariants_reachable st Hr) as [_ [H1 _ _ _ H5 _ _]].
  assert (Hdone : ∀ it, it ∈ doneItems st → is_Some (item_blobUrl it)).
  { intros it [Hst Hit]%list_elem_of_filter. specialize (H1 it Hit).
    unfold fields_ok in H1. rewrite Hst in H1. by destruct H1. }
  destruct (zip_files_all (paletteMode st) (doneItems st) Hdone) as [Hn Hu].
  unfold downloadAllZip, downloadZip.
  rewrite bool_decide_eq_false_2.
  2: { intros Hlen. by apply nil_length_inv in Hlen. }
  eexists. split; [reflexivity|]. simpl.
  split; [by destruct (paletteMode st)|]. split; [done|]. split; [done|].
  split.
  - intros u Hin.
    assert (Some u ∈ map item_blobUrl (doneItems st)) as Hin'.
    { rewrite <- Hu. apply list_elem_of_fmap. by exists u. }
    apply list_elem_of_fmap in Hin' as (it & Hu' & [_ Hit]%list_elem_of_filter).
    by apply (H5 it).
  - rewrite Hn. apply NoDup_map_iff. intros x y. apply exportName_eq_iff.
Qed.

Lemma ascii_name_app s t :
  ascii_name (s ++ t) = ascii_name s && ascii_name t.
Proof.
  unfold ascii_name. induction s as [|c s IH]; [done|].
  rewrite append_cons. simpl. by rewrite IH, andb_assoc.
Qed.

(** On names written in ASCII, where [toLowerCase] is the method of the
    source, lowering goes through concatenation. *)
Lemma toLowerCase_app_ascii s t :
  ascii_name s = true → ascii_name t = true →
  toLowerCase (s ++ t) = toLowerCase s ++ toLowerCase t.
Proof.
  intros _ _. induction s as [|c s IH]; [done|].
  rewrite append_cons. simpl. by rewrite IH.
Qed.

(** X12.  Base name and extension take a name apart at its last dot: for
    a name with a dot and something before the last one, the base name,
    a dot and the part after the last dot give the name back; and when the
    name is written in ASCII, the extension is that part in lower case, so
    that base name, dot and extension give the name back up to the case of
    letters. *)
Theorem baseName_extFromName_recompose name :
  has_dot name = true → before_last_dot name ≠ "" →
  name = baseName name ++ "." ++ after_last_dot name
  ∧ (ascii_name name = true →
       extFromName name = toLowerCase (after_last_dot name)
       ∧ toLowerCase name
         = toLowerCase (baseName name) ++ "." ++ extFromName name).
Proof.
  intros Hd Hb.
  assert (Hbase : baseName name = before_last_dot name).
  { rewrite baseName_cases.
    by destruct (String.eqb_spec (before_last_dot name) ""). }
  assert (Hext : extFromName name = toLowerCase (after_last_dot name)).
  { rewrite extFromName_cases, Hd. reflexivity. }
  rewrite Hbase, Hext. split; [by apply around_last_dot|].
  intros Hascii. split; [done|].
  rewrite (around_last_dot name Hd) in Hascii.
  rewrite ascii_name_app in Hascii.
  apply andb_prop in Hascii as [Hb' Ha'].
  rewrite (around_last_dot name Hd) at 1.
  by rewrite (toLowerCase_app_ascii _ _ Hb' Ha').
Qed.

(** X13.  For a name written in ASCII, the extension never contains a
    dot, is in lower case, and does not depend on the case of the letters
    of the name. *)
Theorem extFromName_lowercase_no_dot name :
  ascii_name name = true →
  has_dot (extFromName name) = false
  ∧ toLowerCase (extFromName name) = extFromName name
  ∧ extFromName (toLowerCase name) = extFromName name
  ∧ isSupportedExt (extFromName (toLowerCase name))
    = isSupportedExt (extFromName name).
Proof.
  intros _.
  assert (H3 : extFromName (toLowerCase name) = extFromName name).
  { unfold extFromName. by rewrite toLowerCase_idem. }
  rewrite H3. split; [|split; [|done]].
  - rewrite extFromName_cases. unfold spec_extension.
    destruct (has_dot name) eqn:Hd.
    + by rewrite has_dot_toLowerCase, has_dot_after_last_dot.
    + by rewrite has_dot_toLowerCase.
  - rewrite extFromName_cases. unfold spec_extension.
    destruct (has_dot name); apply toLowerCase_idem.
Qed.

(** X14.  Two jobs get the same export name under a mode exactly when
    their base names are equal (as for [a.png] and [a.jpg], whose entries
    then share one name in the archive), and a name exported under gray is
    never a name exported under dmg. *)
Theorem exportName_collisions mode a b :
  (exportName mode a = exportName mode b ↔ baseName a = baseName b)
  ∧ exportName gray a ≠ exportName dmg b
  ∧ exportName mode "a.png" = exportName mode "a.jpg".
Proof.
  split; [split|split].
  - unfold exportName. intros Heq. by apply append_cancel_r in Heq.
  - unfold exportName. by intros ->.
  - unfold exportName. simpl. apply suffixes_differ.
  - reflexivity.
Qed.

(* ===================================================================== *)
(** * More about ingestion *)
(* ===================================================================== *)

Section MoreIngest.

Variable loadAsync : File → option (list ZipEntry).

Lemma new_items_files n files : map item_file (new_items n files) = files.
Proof.
  revert n. induction files as [|f fs IH]; intros n; simpl; [done|].
  by rewrite IH.
Qed.

Lemma handleZips_unreadable zips st z :
  z ∈ zips → loadAsync z = None →
  ∃ st', handleZips loadAsync zips st = Rejected st'.
Proof.
  revert st. induction zips as [|y zips IH]; intros st Hz Hload;
    [inversion Hz|]. simpl.
  destruct (handleZip loadAsync y st) as [st1|st1] eqn:Hy; [|eauto].
  apply elem_of_cons in Hz as [->|Hz]; [|by apply IH].
  unfold handleZip in Hy. rewrite Hload in Hy. discriminate.
Qed.

End MoreIngest.

(** X15.  A batch without any zip and with at least one supported image
    resolves with one queued job per supported image, in the order of the
    drop, each holding its file, and raises no notice.  No file is both a
    zip and an image. *)
Theorem handleFiles_images_in_order
    (loadAsync : File → option (list ZipEntry)) files st :
  let images := filter (λ file, is_image file = true) files in
  filter (λ file, is_zip file = true) files = [] → images ≠ [] →
  handleFiles loadAsync files st = Resolved (enqueueFiles images st)
  ∧ (∃ added,
       items (enqueueFiles images st) = (items st ++ added)%list
       ∧ map item_file added = images
       ∧ map item_name added = map file_name images
       ∧ Forall (λ it, item_status it = queued) added)
  ∧ toasts (enqueueFiles images st) = toasts st
  ∧ (∀ file, is_zip file = true → is_image file = false).
Proof.
  intros images Hz Hi. split; [|split; [|split]].
  - unfold handleFiles. fold images. rewrite Hz. simpl.
    by rewrite !bool_decide_eq_false_2.
  - eexists. split; [reflexivity|].
    split; [apply new_items_files|]. split; [apply new_items_names|].
    apply Forall_forall. intros it Hit. by apply new_items_queued in Hit.
  - done.
  - unfold is_zip, is_image. intros file ->%String.eqb_eq. reflexivity.
Qed.

(** X16.  An unreadable archive blocks the batch it is dropped with: if
    some zip of the batch cannot be read, [handleFiles] rejects, and the
    images dropped together with it are not enqueued; when the unreadable
    zip is the first zip, the state is left as it was, with no job and no
    notice. *)
Theorem unreadable_zip_blocks_batch
    (loadAsync : File → option (list ZipEntry)) files st z :
  z ∈ files → is_zip z = true → loadAsync z = None →
  (∃ st', handleFiles loadAsync files st = Rejected st'
          ∧ handleZips loadAsync (filter (λ file, is_zip file = true) files) st
            = Rejected st')
  ∧ (∀ rest, filter (λ file, is_zip file = true) files = z :: rest →
       handleFiles loadAsync files st = Rejected st).
Proof.
  intros Hz Hzip Hload.
  assert (Hin : z ∈ filter (λ file, is_zip file = true) files)
    by by apply list_elem_of_filter.
  split.
  - destruct (handleZips_unreadable loadAsync _ st z Hin Hload) as [st' Hst'].
    exists st'. split; [|done]. unfold handleFiles.
    rewrite bool_decide_eq_false_2; [by rewrite Hst'|].
    intros Hnil. rewrite Hnil in Hin. inversion Hin.
  - intros rest Heq. unfold handleFiles. rewrite Heq. simpl.
    unfold handleZip. by rewrite Hload.
Qed.

(* ===================================================================== *)
(** * More about the quantizer *)
(* ===================================================================== *)

Section Bands.
Local Open Scope Z_scope.

Lemma code_band_le_spec r g b : code_band r g b ≤ spec_band r g b.
Proof. unfold code_band. destruct (rounded_down r g b); lia. Qed.

Lemma spec_band_mono r g b r' g' b' :
  lum10000 r g b ≤ lum10000 r' g' b' → spec_band r g b ≤ spec_band r' g' b'.
Proof.
  unfold spec_band, lum10000. intros Hle.
  assert (Hd := Z.div_le_mono _ _ 640000 ltac:(lia) Hle). lia.
Qed.

Lemma code_band_mono r g b r' g' b' :
  0 ≤ r ≤ r' → 0 ≤ g ≤ g' → 0 ≤ b ≤ b' →
  r' ≤ 255 → g' ≤ 255 → b' ≤ 255 →
  code_band r g b ≤ code_band r' g' b'.
Proof.
  intros Hr Hg Hb Hr' Hg' Hb'.
  destruct (decide (lum10000 r g b = lum10000 r' g' b')) as [Heq|Hne].
  - unfold lum10000 in Heq.
    assert (r = r') as -> by lia. assert (g = g') as -> by lia.
    assert (b = b') as -> by lia. lia.
  - assert (Hlt : lum10000 r g b < lum10000 r' g' b')
      by (unfold lum10000 in *; lia).
    pose proof (code_band_le_spec r g b) as Hle.
    unfold code_band at 2. destruct (rounded_down r' g' b') eqn:Hrd.
    + apply rounded_down_boundary in Hrd.
      pose proof (Z.div_mod (lum10000 r' g' b') 640000 ltac:(lia)) as Hdm.
      rewrite Hrd in Hdm.
      assert (H1 : lum10000 r g b / 640000 < lum10000 r' g' b' / 640000)
        by (apply Z.div_lt_upper_bound; lia).
      assert (H2 : 0 ≤ lum10000 r g b / 640000)
        by (apply Z.div_pos; unfold lum10000; lia).
      assert (H3 : lum10000 r' g' b' / 640000 ≤ 3)
        by (apply Z.lt_succ_r, Z.div_lt_upper_bound; unfold lum10000; lia).
      assert (Hs : ∀ x y z, spec_band x y z
                            = Z.min 3 (Z.max 0 (lum10000 x y z / 640000)))
        by reflexivity.
      rewrite Hs in *. lia.
    + pose proof (spec_band_mono r g b r' g' b'). lia.
Qed.

Lemma grays_checked :
  forallb (λ v, code_band v v v =? v / 64) bytes = true.
Proof. vm_compute. reflexivity. Qed.

End Bands.

(** X17.  Brightening never darkens: if every channel of one colour is at
    most the same channel of another, the band index the code computes for
    the first is at most the one it computes for the second, the rounding
    of the luminance notwithstanding. *)
Theorem brighter_colour_no_lower_band r g b r' g' b' i j :
  (0 ≤ r ≤ r')%Z → (0 ≤ g ≤ g')%Z → (0 ≤ b ≤ b')%Z →
  (r' ≤ 255)%Z → (g' ≤ 255)%Z → (b' ≤ 255)%Z →
  array_index (level r g b) = Some i →
  array_index (level r' g' b') = Some j →
  (i ≤ j)%nat.
Proof.
  intros Hr Hg Hb Hr' Hg' Hb'.
  rewrite !level_band by lia. intros [= <-] [= <-].
  pose proof (code_band_mono r g b r' g' b' Hr Hg Hb Hr' Hg' Hb').
  pose proof (code_band_range r g b ltac:(lia) ltac:(lia) ltac:(lia)).
  lia.
Qed.

(** X18.  A grey pixel of value [v] is put in band [floor(v / 64)]: the
    code computes that index for every byte [v], so greys [0..63] get
    entry 0, [64..127] entry 1, [128..191] entry 2 and [192..255] entry
    3. *)
Theorem grey_band v :
  (0 ≤ v ≤ 255)%Z →
  array_index (level v v v) = Some (Z.to_nat (v / 64))
  ∧ (0 ≤ v / 64 ≤ 3)%Z.
Proof.
  intros Hv. rewrite level_band by done.
  pose proof grays_checked as H. rewrite forallb_forall in H.
  specialize (H v (byte_in_bytes v Hv)). apply Z.eqb_eq in H. rewrite H.
  split; [done|]. split; [apply Z.div_pos; lia|].
  apply Z.lt_succ_r, Z.div_lt_upper_bound; lia.
Qed.

(* ===================================================================== *)
(** * Whole images *)
(* ===================================================================== *)

Section Images.

Implicit Types (data out : list Z) (k n : nat).

Lemma pixel_defined data n k :
  length data = (4 * n)%nat → (k < n)%nat → is_Some (pixel data k).
Proof. exact (pixel_is_Some GRAY_PALETTE eq_refl data n k). Qed.

(** Byte [i] of an image is one of the four of pixel [i / 4]. *)
Lemma byte_of_pixel data n i v :
  length data = (4 * n)%nat → data !! i = Some v →
  ∃ k r g b a, (k < n)%nat ∧ pixel data k = Some (r, g, b, a)
               ∧ (v = r ∨ v = g ∨ v = b ∨ v = a)
               ∧ (i = 4 * k ∨ i = 4 * k + 1 ∨ i = 4 * k + 2 ∨ i = 4 * k + 3)%nat.
Proof.
  intros Hlen Hi. pose proof (lookup_lt_Some _ _ _ Hi) as Hlt.
  remember (i / 4)%nat as k eqn:Hkdef.
  assert (Hk : (k < n)%nat) by (subst k; apply Nat.Div0.div_lt_upper_bound; lia).
  destruct (pixel_defined data n k Hlen Hk) as [[[[r g] b] a] Hp].
  exists k, r, g, b, a. split; [done|]. split; [done|].
  pose proof Hp as (Hr & Hg & Hb & Ha)%pixel_Some.
  pose proof (Nat.div_mod_eq i 4) as Hdm. rewrite <- Hkdef in Hdm.
  pose proof (Nat.mod_upper_bound i 4 ltac:(lia)) as Hm.
  assert (i mod 4 = 0 ∨ i mod 4 = 1 ∨ i mod 4 = 2 ∨ i mod 4 = 3)%nat
    as [H0|[H1|[H2|H3]]] by lia.
  - assert (i = 4 * k)%nat as -> by lia. split; [|lia]. left. congruence.
  - assert (i = 4 * k + 1)%nat as -> by lia. split; [|lia].
    right. left. congruence.
  - assert (i = 4 * k + 2)%nat as -> by lia. split; [|lia].
    right. right. left. congruence.
  - assert (i = 4 * k + 3)%nat as -> by lia. split; [|lia].
    right. right. right. congruence.
Qed.

(** Images of one size with the same pixels are the same list. *)
Lemma image_ext data out n :
  length data = (4 * n)%nat → length out = (4 * n)%nat →
  (∀ k, (k < n)%nat → pixel out k = pixel data k) → out = data.
Proof.
  intros Hd Ho Hpx. apply list_eq. intros i.
  destruct (decide (i < 4 * n)%nat) as [Hlt|Hge].
  2: { rewrite !lookup_ge_None_2 by lia. done. }
  destruct (lookup_lt_is_Some_2 data i) as [v Hv]; [lia|].
  destruct (byte_of_pixel data n i v Hd Hv)
    as (k & r & g & b & a & Hk & Hp & _ & Hi).
  specialize (Hpx k Hk). rewrite Hp in Hpx.
  apply pixel_Some in Hp as (Hr & Hg & Hb & Ha).
  apply pixel_Some in Hpx as (Hr' & Hg' & Hb' & Ha').
  destruct Hi as [->|[->|[->| ->]]]; congruence.
Qed.

Lemma palette_bytes mode shade :
  shade ∈ activePalette mode →
  (0 ≤ shade_r shade ≤ 255 ∧ 0 ≤ shade_g shade ≤ 255
   ∧ 0 ≤ shade_b shade ≤ 255)%Z.
Proof.
  destruct mode; simpl; intros Hin;
    repeat (apply elem_of_cons in Hin as [->|Hin]; [simpl; lia|]);
    inversion Hin.
Qed.

Lemma convertToDmg_pixels mode n data out :
  image_data n data →
  convertToDmg (activePalette mode) data = Some out →
  length out = (4 * n)%nat
  ∧ ∀ k r g b a, pixel data k = Some (r, g, b, a) →
      ∃ r' g' b', pixel out k = Some (r', g', b', a)
        ∧ (0 ≤ r' ≤ 255 ∧ 0 ≤ g' ≤ 255 ∧ 0 ≤ b' ≤ 255)%Z.
Proof.
  intros Himg Hout. pose proof Himg as [Hlen _].
  destruct (quantize_recolors mode n data Himg) as (out' & Hout' & Hlen' & Hpx).
  rewrite Hout in Hout'. injection Hout' as <-.
  split; [lia|].
  intros k r g b a Hp. destruct (Hpx k _ Hp) as (q & Hq & Hrec).
  pose proof (image_data_bytes n data k r g b a Himg Hp) as (? & ? & ? & ?).
  simpl in Hrec. case_decide.
  - subst q. eauto 10.
  - destruct Hrec as (shade & Hshade & ->).
    apply list_elem_of_lookup_2 in Hshade.
    apply palette_bytes in Hshade. eauto 10.
Qed.

Lemma convertToDmg_image_data mode n data out :
  image_data n data →
  convertToDmg (activePalette mode) data = Some out →
  image_data n out.
Proof.
  intros Himg Hout. pose proof Himg as [Hlen _].
  destruct (convertToDmg_pixels mode n data out Himg Hout) as [Hlen' Hpx].
  split; [done|]. apply Forall_lookup. intros i v Hv.
  destruct (byte_of_pixel out n i v Hlen' Hv)
    as (k & r' & g' & b' & a' & Hk & Hp' & Hor & _).
  destruct (pixel_defined data n k Hlen Hk) as [[[[r g] b] a] Hp].
  destruct (Hpx k r g b a Hp) as (r2 & g2 & b2 & Hp2 & Hb2).
  rewrite Hp' in Hp2. injection Hp2 as -> -> -> ->.
  pose proof (image_data_bytes n data k r g b a Himg Hp) as (_ & _ & _ & ?).
  destruct Hor as [->|[->|[->| ->]]]; lia.
Qed.

End Images.

(** X19.  The output of the loop is again the pixel data of an image of
    the same size: as many bytes, each in [0..255]; and every pixel,
    transparent or not, keeps its alpha byte. *)
Theorem convertToDmg_output_is_image mode n data :
  image_data n data →
  ∃ out,
    convertToDmg (activePalette mode) data = Some out
    ∧ image_data n out
    ∧ ∀ k r g b a, pixel data k = Some (r, g, b, a) →
        ∃ r' g' b', pixel out k = Some (r', g', b', a).
Proof.
  intros Himg.
  destruct (quantize_recolors mode n data Himg) as (out & Hout & _).
  exists out. split; [done|].
  split; [by apply (convertToDmg_image_data mode n data)|].
  intros k r g b a Hp.
  destruct (convertToDmg_pixels mode n data out Himg Hout) as [_ Hpx].
  destruct (Hpx k r g b a Hp) as (r' & g' & b' & Hp' & _). eauto.
Qed.

(** X20.  An image all of whose pixels are transparent comes out of the
    loop byte for byte as it went in; so does the empty image. *)
Theorem transparent_image_unchanged mode n data :
  image_data n data →
  (∀ k r g b a, pixel data k = Some (r, g, b, a) → a = 0%Z) →
  convertToDmg (activePalette mode) data = Some data.
Proof.
  intros Himg Ht. pose proof Himg as [Hlen _].
  destruct (quantize_recolors mode n data Himg) as (out & Hout & Hlen' & Hpx).
  rewrite Hout. f_equal. apply (image_ext data out n); [done|lia|].
  intros k Hk.
  destruct (pixel_defined data n k Hlen Hk) as [[[[r g] b] a] Hp].
  destruct (Hpx k _ Hp) as (q & Hq & Hrec).
  pose proof (Ht k r g b a Hp) as ->. simpl in Hrec. subst q. congruence.
Qed.

(** X21.  Under the gray palette a converted image is a fixed point:
    converting the output again gives the same bytes.  Under the dmg
    palette it is not, because the lightest shade [(155, 188, 15)] is
    itself in band 2; a second conversion moves it to the third shade,
    and from then on the image is stable. *)
Theorem reconversion mode n data out :
  image_data n data →
  convertToDmg (activePalette mode) data = Some out →
  (mode = gray → convertToDmg (activePalette mode) out = Some out)
  ∧ (∃ out2, convertToDmg (activePalette mode) out = Some out2
             ∧ convertToDmg (activePalette mode) out2 = Some out2)
  ∧ convertToDmg DMG_PALETTE [255; 255; 255; 255]%Z
    = Some [155; 188; 15; 255]%Z
  ∧ convertToDmg DMG_PALETTE [155; 188; 15; 255]%Z
    = Some [139; 172; 15; 255]%Z.
Proof.
  intros Himg Hout.
  (* when the palette sends each of its entries to itself *)
  assert (Hfix : ∀ d o m, image_data m d →
            convertToDmg (activePalette mode) d = Some o →
            (∀ k r g b a, pixel d k = Some (r, g, b, a) → a ≠ 0%Z →
               ∀ shade,
                 activePalette mode !! Z.to_nat (code_band r g b) = Some shade →
                 activePalette mode
                   !! Z.to_nat (code_band (shade_r shade) (shade_g shade)
                                          (shade_b shade)) = Some shade) →
            convertToDmg (activePalette mode) o = Some o).
  { intros d o m Hd Ho Hself.
    pose proof (convertToDmg_image_data mode m d o Hd Ho) as Himg'.
    destruct (quantize_recolors mode m d Hd) as (o' & Ho' & _ & Hpx).
    rewrite Ho in Ho'. injection Ho' as <-.
    destruct (quantize_recolors mode m o Himg') as (o2 & Ho2 & Hlen2 & Hpx2).
    rewrite Ho2. f_equal. pose proof Hd as [Hlen _]. pose proof Himg' as [Hlen' _].
    apply (image_ext o o2 m); [done|lia|].
    intros k Hk.
    destruct (pixel_defined d m k Hlen Hk) as [[[[r g] b] a] Hp].
    destruct (Hpx k _ Hp) as (q & Hq & Hrec).
    destruct (Hpx2 k _ Hq) as (q2 & Hq2 & Hrec2).
    rewrite Hq, Hq2. f_equal.
    simpl in Hrec. destruct (decide (a = 0%Z)) as [->|Ha].
    - subst q. simpl in Hrec2. done.
    - destruct Hrec as (shade & Hshade & ->). simpl in Hrec2.
      rewrite decide_False in Hrec2 by done.
      destruct Hrec2 as (shade2 & Hshade2 & ->).
      rewrite (Hself k r g b a Hp Ha shade Hshade) in Hshade2.
      by injection Hshade2 as <-. }
  (* the entries of the palettes and their own bands *)
  assert (Hentry : ∀ (i : nat) shade, activePalette mode !! i = Some shade →
            ∃ shade', activePalette mode
                        !! Z.to_nat (code_band (shade_r shade) (shade_g shade)
                                               (shade_b shade)) = Some shade'
              ∧ activePalette mode
                  !! Z.to_nat (code_band (shade_r shade') (shade_g shade')
                                         (shade_b shade')) = Some shade'
              ∧ (mode = gray → shade' = shade)).
  { intros i shade Hi.
    destruct mode; destruct i as [|[|[|[|i]]]]; simpl in Hi;
      try discriminate; injection Hi as <-;
      (eexists; split; [vm_compute; reflexivity|];
       split; [vm_compute; reflexivity|]; intros; done). }
  split; [|split; [|split; reflexivity]].
  - intros Hm. apply (Hfix data out n Himg Hout).
    intros k r g b a Hp Ha shade Hshade.
    destruct (Hentry _ shade Hshade) as (shade' & Hs1 & _ & Heq).
    by rewrite (Heq Hm) in Hs1.
  - pose proof (convertToDmg_image_data mode n data out Himg Hout) as Himg'.
    destruct (quantize_recolors mode n out Himg') as (out2 & Hout2 & _).
    exists out2. split; [done|].
    apply (Hfix out out2 n Himg' Hout2).
    intros k r g b a Hp Ha shade Hshade.
    (* the colour of a visible pixel of [out] is an entry of the palette *)
    destruct (quantize_recolors mode n data Himg) as (o & Ho & _ & Hpx).
    rewrite Hout in Ho. injection Ho as <-.
    pose proof Himg as [Hlen _].
    assert (Hk : (k < n)%nat).
    { apply pixel_Some in Hp as (_ & _ & _ & Ha').
      apply lookup_lt_Some in Ha'. destruct Himg' as [Hl _]. lia. }
    destruct (pixel_defined data n k Hlen Hk) as [[[[r0 g0] b0] a0] Hp0].
    destruct (Hpx k _ Hp0) as (q & Hq & Hrec).
    rewrite Hp in Hq. injection Hq as <-. simpl in Hrec.
    destruct (decide (a0 = 0%Z)) as [->|Ha0].
    { injection Hrec as _ _ _ ->. done. }
    destruct Hrec as (shade0 & Hshade0 & [= -> -> -> _]).
    destruct (Hentry _ shade0 Hshade0) as (shade' & Hs1 & Hs2 & _).
    rewrite Hs1 in Hshade. by injection Hshade as <-.
Qed.

(* ===================================================================== *)
(** * More about archives *)
(* ===================================================================== *)

Section Archives.

Variable loadAsync : File → option (list ZipEntry).

Lemma isSupportedExt_cases ext :
  isSupportedExt ext = true →
  ext = "png" ∨ ext = "jpg" ∨ ext = "jpeg" ∨ ext = "webp".
Proof.
  unfold isSupportedExt, SUPPORTED_EXTS. simpl. intros H.
  repeat (apply orb_prop in H as [H|H]; [apply String.eqb_eq in H; tauto|]).
  discriminate.
Qed.

Lemma new_items_map {A} (f : Item → A) (g : File → A) n files :
  (∀ id file, f (new_item id file) = g file) →
  map f (new_items n files) = map g files.
Proof.
  intros Hfg. revert n. induction files as [|x xs IH]; intros n; simpl; [done|].
  by rewrite Hfg, IH.
Qed.

Lemma handleZips_appends zips st st' :
  handleZips loadAsync zips st = Resolved st' →
  ∃ added, items st' = (items st ++ added)%list.
Proof.
  intros Hz. pose proof (ingested_handleZips loadAsync zips st) as H.
  rewrite Hz in H. destruct H as (added & _ & Hitems & _). eauto.
Qed.

End Archives.

(** X22.  The jobs made of an accepted archive carry the archive's common
    extension and files typed after it: each job is named after its entry,
    has the extension of the first entry, and holds the bytes of its entry
    as a file of type [image/<ext>], with [image/jpeg] for [jpg]. *)
Theorem archive_jobs_typed
    (loadAsync : File → option (list ZipEntry)) zipFile files st first rest :
  loadAsync zipFile = Some files →
  filter (λ entry, entry_dir entry = false) files = first :: rest →
  isSupportedExt (extFromName (entry_name first)) = true →
  (∀ e, e ∈ rest → extFromName (entry_name e) = extFromName (entry_name first)) →
  let ext := extFromName (entry_name first) in
  ∃ added,
    handleZip loadAsync zipFile st
    = Resolved (enqueueFiles (map item_file added) st)
    ∧ items (enqueueFiles (map item_file added) st) = (items st ++ added)%list
    ∧ map item_name added = map entry_name (first :: rest)
    ∧ map (λ it, file_bytes (item_file it)) added
      = map entry_data (first :: rest)
    ∧ Forall (λ it, item_ext it = ext
                    ∧ file_name (item_file it) = item_name it
                    ∧ file_type (item_file it)
                      = "image/" ++ (if String.eqb ext "jpg" then "jpeg" else ext))
             added.
Proof.
  intros Hload Hentries Hsup Hsame ext. subst ext.
  set (ext := extFromName (entry_name first)) in *.
  set (extracted := map (extract ext) (first :: rest)).
  exists (new_items (next_id st) extracted).
  rewrite new_items_files.
  split; [|split; [reflexivity|split; [|split]]].
  - unfold handleZip. rewrite Hload, Hentries. fold ext. rewrite Hsup.
    cbv beta iota zeta. simpl negb. cbv iota.
    assert (Hmixed : existsb (λ entry, negb (String.eqb
                        (extFromName (entry_name entry)) ext)) (first :: rest)
                     = false).
    { apply mixed_false. intros e [->|He]%elem_of_cons; [done|by apply Hsame]. }
    rewrite Hmixed. reflexivity.
  - rewrite (new_items_map item_name file_name) by done.
    unfold extracted. rewrite map_map. reflexivity.
  - rewrite (new_items_map (λ it, file_bytes (item_file it)) file_bytes) by done.
    unfold extracted. rewrite map_map. reflexivity.
  - apply Forall_forall. intros it Hit.
    assert (Hfile : item_file it ∈ extracted).
    { rewrite <- (new_items_files (next_id st) extracted).
      apply list_elem_of_fmap. eauto. }
    assert (Hit' : item_ext it = extFromName (file_name (item_file it))
                   ∧ file_name (item_file it) = item_name it).
    { clear Hfile. revert Hit. generalize (next_id st).
      induction extracted as [|x xs IH]; intros n Hit; [inversion Hit|].
      simpl in Hit. apply elem_of_cons in Hit as [->|Hit]; [done|eauto]. }
    destruct Hit' as [Hext Hname].
    apply list_elem_of_fmap in Hfile as (e & Hfile & He).
    rewrite Hext, Hfile. simpl.
    split; [|split; [by rewrite <- Hname, Hfile|]].
    + apply elem_of_cons in He as [->|He]; [done|by apply Hsame].
    + destruct (isSupportedExt_cases ext Hsup) as [H|[H|[H|H]]];
        fold ext; rewrite H; reflexivity.
Qed.

(** X23.  Archives first: whatever the order of the files in a drop, when
    [handleFiles] resolves the jobs of the archives come before the jobs of
    the loose images, which follow in drop order; the jobs that were there
    keep their places at the front. *)
Theorem handleFiles_archives_first
    (loadAsync : File → option (list ZipEntry)) files st st' :
  handleFiles loadAsync files st = Resolved st' →
  ∃ st1 from_archives from_images,
    handleZips loadAsync (filter (λ file, is_zip file = true) files) st
    = Resolved st1
    ∧ items st1 = (items st ++ from_archives)%list
    ∧ items st' = (items st ++ from_archives ++ from_images)%list
    ∧ map item_file from_images = filter (λ file, is_image file = true) files.
Proof.
  unfold handleFiles.
  set (zips := filter (λ file, is_zip file = true) files).
  set (images := filter (λ file, is_image file = true) files).
  destruct (bool_decide (zips = []) && bool_decide (images = [])) eqn:Hnone.
  - apply andb_prop in Hnone as [Hz%bool_decide_eq_true Hi%bool_decide_eq_true].
    intros [= <-]. exists st, [], []. rewrite Hz, Hi. simpl.
    by rewrite app_nil_r.
  - destruct (handleZips loadAsync zips st) as [st1|st1] eqn:Hzips; [|done].
    destruct (handleZips_appends loadAsync zips st st1 Hzips) as [added Hadded].
    destruct (bool_decide (images = [])) eqn:Hi; intros [= <-].
    + apply bool_decide_eq_true in Hi. exists st1, added, [].
      rewrite Hi, app_nil_r. done.
    + exists st1, added, (new_items (next_id st1) images).
      split; [done|]. split; [done|]. simpl. rewrite Hadded, <- app_assoc.
      split; [done|apply new_items_files].
Qed.

(* ===================================================================== *)
(** * The further theorems at sample inputs *)
(* ===================================================================== *)

Lemma reachable_st_queued : reachable st_queued.
Proof.
  unfold reachable.
  eapply rtc_l; [apply (step_enqueue [photo])|]. apply rtc_refl.
Defined.

Lemma reachable_st_done : reachable st_done.
Proof.
  unfold reachable.
  eapply rtc_l; [apply (step_enqueue [photo])|].
  eapply rtc_l; [apply (step_pick _ st_processing); reflexivity|].
  eapply rtc_l.
  { apply (step_complete 2%Z 2%Z st_processing (mkPending 0 photo dmg false));
      reflexivity. }
  eapply rtc_l.
  { apply (step_idle (conversion_then 2 2 st_processing)
                     (mkPending 0 photo dmg true)); reflexivity. }
  apply rtc_refl.
Defined.

Lemma st_done_items :
  items st_done
  = [mkItem 0 "photo.JPG" "jpg" photo done (Some 0%nat) (Some 2%Z) (Some 2%Z)
            None false].
Proof. reflexivity. Defined.

(** X1 at the state where [photo.JPG] is done: the job has its URL. *)
Lemma result_fields_follow_status_witness :
  reachable st_done
  ∧ ∃ it, items st_done = [it] ∧ item_status it = done
          ∧ is_Some (item_blobUrl it) ∧ ¬ is_Some (item_error it).
Proof.
  split; [exact reachable_st_done|].
  eexists. split; [exact st_done_items|]. split; [reflexivity|].
  destruct (result_fields_follow_status st_done _ reachable_st_done
              (list_elem_of_here _ _)) as (Hurl & _ & _ & Herr).
  split; [by apply Hurl|]. intros H. by apply Herr in H.
Defined.

(** X2 at the same state: URL [0], held by the job, is live. *)
Lemma held_urls_are_live_witness :
  reachable st_done ∧ 0%nat ∈ live_urls st_done.
Proof.
  split; [exact reachable_st_done|].
  destruct (held_urls_are_live st_done reachable_st_done) as [Hlive _].
  eapply Hlive; [apply list_elem_of_here|reflexivity].
Defined.

(** X3 at the state where the watcher has just picked: the processor is
    busy and a conversion is in flight. *)
Lemma busy_while_converting_witness :
  reachable st_processing
  ∧ busy st_processing = true ∧ is_Some (conversion st_processing).
Proof.
  split; [exact reachable_st_processing|]. split; [reflexivity|].
  by apply (proj1 (busy_while_converting st_processing
                     reachable_st_processing)).
Defined.

(** X4 at the state where [photo.JPG] is queued. *)
Lemma watcher_picks_first_queued_witness :
  reachable st_queued ∧ watcher st_queued = Some st_processing
  ∧ ∃ before next after,
      items st_queued = (before ++ next :: after)%list
      ∧ item_status next = queued
      ∧ items st_processing
        = (before ++ with_status processing next :: after)%list.
Proof.
  split; [exact reachable_st_queued|]. split; [reflexivity|].
  destruct (watcher_picks_first_queued st_queued st_processing
              reachable_st_queued eq_refl)
    as (before & next & after & H1 & H2 & _ & H3 & _).
  exists before, next, after. by repeat split.
Defined.

(** X5 at the same state: the application settles the one job. *)
Lemma queue_drains_witness :
  reachable st_queued
  ∧ ∃ st', rtc runs st_queued st' ∧ all_settled st' ∧ busy st' = false.
Proof.
  split; [exact reachable_st_queued|].
  destruct (queue_drains st_queued reachable_st_queued)
    as (st' & Hruns & _ & Hall & Hbusy & _).
  exists st'. by repeat split.
Defined.

(** X6 at the same state: the mode is toggled while [photo.JPG] is being
    converted, and the job ends [done] under the other mode. *)
Lemma late_result_overrides_reset_witness :
  watcher st_queued = Some st_processing
  ∧ map item_status (items (conversion_then 2 2 (togglePalette st_processing)))
    = [done]
  ∧ ∃ next,
      next_queued (items st_queued) = Some next
      ∧ paletteMode (conversion_then 2 2 (togglePalette st_processing))
        = flip (paletteMode st_queued).
Proof.
  split; [reflexivity|]. split; [reflexivity|].
  destruct (late_result_overrides_reset st_queued st_processing 2 2 eq_refl)
    as (next & Hnext & _ & _ & _ & Hmode & _).
  exists next. by split.
Defined.

(** X7 at the state where [photo.JPG] is being converted: the list is
    cleared, the result lands, the list stays empty; the URL of the result
    is still live after the palette is toggled and the list cleared
    again. *)
Lemma late_result_after_clear_witness :
  conversion st_processing = Some (mkPending 0 photo dmg false)
  ∧ items (conversion_then 2 2 (clearAll st_processing)) = []
  ∧ next_url st_processing
    ∈ live_urls (clearAll (togglePalette
                             (conversion_then 2 2 (clearAll st_processing)))).
Proof.
  split; [reflexivity|].
  destruct (late_result_after_clear st_processing
              (mkPending 0 photo dmg false) 2 2 "decode failed" eq_refl)
    as (H1 & _ & _ & _ & H2).
  split; [exact H1|].
  apply (H2 (clearAll (togglePalette
                         (conversion_then 2 2 (clearAll st_processing))))).
  eapply rtc_l; [apply step_toggle|].
  eapply rtc_l; [apply step_clear|]. apply rtc_refl.
Defined.

(** X9 at the state where [photo.JPG], selected while done, is queued
    again after a palette toggle: [clearSelection] clears its flag. *)
Lemma selection_covers_done_witness :
  map item_status (items (togglePalette st_selected)) = [queued]
  ∧ map item_selected (items (togglePalette st_selected)) = [true]
  ∧ ∀ it, it ∈ items (clearSelection (togglePalette st_selected)) →
          item_selected it = false.
Proof.
  split; [reflexivity|]. split; [reflexivity|].
  apply (selection_covers_done (togglePalette st_selected)).
Defined.

(** X10 at the same state. *)
Lemma toggleSelected_twice_witness :
  st_selected = toggleSelected 0 st_done
  ∧ toggleSelected 0 st_selected = st_done.
Proof.
  split; [reflexivity|]. apply (toggleSelected_twice 0 st_done).
Defined.

(** X11 at the state where [photo.JPG] is done: one call, under the name
    [photo-dmg.png]. *)
Lemma downloadAllZip_one_call_per_job_witness :
  reachable st_done ∧ doneItems st_done ≠ []
  ∧ ∃ d, downloadAllZip st_done = Resolved (add_download d st_done)
         ∧ dl_name d = "img2dmg-all.zip"
         ∧ map fst (dl_entries d) = ["photo-dmg.png"].
Proof.
  split; [exact reachable_st_done|]. split; [discriminate|].
  destruct (downloadAllZip_one_call_per_job st_done reachable_st_done)
    as (d & Hd & Hname & Hentries & _); [discriminate|].
  exists d. split; [exact Hd|]. split; [exact Hname|exact Hentries].
Defined.

(** X12 at [photo.JPG]. *)
Lemma baseName_extFromName_recompose_witness :
  has_dot "photo.JPG" = true ∧ before_last_dot "photo.JPG" = "photo"
  ∧ ascii_name "photo.JPG" = true
  ∧ "photo.JPG" = baseName "photo.JPG" ++ "." ++ after_last_dot "photo.JPG"
  ∧ toLowerCase "photo.JPG"
    = toLowerCase (baseName "photo.JPG") ++ "." ++ extFromName "photo.JPG"
  ∧ extFromName "photo.JPG" = "jpg".
Proof.
  split; [reflexivity|]. split; [reflexivity|]. split; [reflexivity|].
  destruct (baseName_extFromName_recompose "photo.JPG" eq_refl)
    as (H1 & H2).
  { discriminate. }
  split; [exact H1|]. split; [exact (proj2 (H2 eq_refl))|reflexivity].
Defined.

(** X13 at [Holiday.Photo.JPG]. *)
Lemma extFromName_lowercase_no_dot_witness :
  ascii_name "Holiday.Photo.JPG" = true
  ∧ extFromName "Holiday.Photo.JPG" = "jpg"
  ∧ extFromName (toLowerCase "Holiday.Photo.JPG")
    = extFromName "Holiday.Photo.JPG".
Proof.
  split; [reflexivity|]. split; [reflexivity|].
  apply (extFromName_lowercase_no_dot "Holiday.Photo.JPG" eq_refl).
Defined.

(** X15 at the batch [photo.JPG], [notes.txt]. *)
Lemma handleFiles_images_in_order_witness :
  filter (λ file, is_zip file = true) [photo; notes] = []
  ∧ filter (λ file, is_image file = true) [photo; notes] = [photo]
  ∧ handleFiles sample_loadAsync [photo; notes] init
    = Resolved (enqueueFiles [photo] init).
Proof.
  split; [reflexivity|]. split; [reflexivity|].
  apply (handleFiles_images_in_order sample_loadAsync [photo; notes] init
           eq_refl).
  discriminate.
Defined.

(** X16 at a batch of [photo.JPG] and an archive that cannot be read. *)
Lemma unreadable_zip_blocks_batch_witness :
  sample_loadAsync (mkFile "broken.zip" "application/zip" []) = None
  ∧ handleFiles sample_loadAsync
      [photo; mkFile "broken.zip" "application/zip" []] init
    = Rejected init.
Proof.
  split; [reflexivity|].
  apply (proj2 (unreadable_zip_blocks_batch sample_loadAsync
                  [photo; mkFile "broken.zip" "application/zip" []] init
                  (mkFile "broken.zip" "application/zip" [])
                  (list_elem_of_further _ _ _ (list_elem_of_here _ _))
                  eq_refl eq_refl) []).
  reflexivity.
Defined.

(** X17 at grey 64 and white. *)
Lemma brighter_colour_no_lower_band_witness :
  array_index (level 64 64 64) = Some 1%nat
  ∧ array_index (level 255 255 255) = Some 3%nat
  ∧ (1 ≤ 3)%nat.
Proof.
  split; [reflexivity|]. split; [reflexivity|].
  apply (brighter_colour_no_lower_band 64 64 64 255 255 255 1 3);
    solve [lia | reflexivity].
Defined.

(** X18 at grey 200. *)
Lemma grey_band_witness :
  array_index (level 200 200 200) = Some 3%nat.
Proof.
  apply (proj1 (grey_band 200 ltac:(lia))).
Defined.

(** X19 at the 3 x 1 image. *)
Lemma convertToDmg_output_is_image_witness :
  image_data 3 three_pixels
  ∧ ∃ out, convertToDmg (activePalette dmg) three_pixels = Some out
           ∧ image_data 3 out
           ∧ ∃ r' g' b', pixel out 2 = Some (r', g', b', 7%Z).
Proof.
  split; [exact image_data_three_pixels|].
  destruct (convertToDmg_output_is_image dmg 3 three_pixels
              image_data_three_pixels) as (out & Hout & Himg & Halpha).
  exists out. split; [exact Hout|]. split; [exact Himg|].
  apply (Halpha 2%nat 255%Z 255%Z 255%Z 7%Z). reflexivity.
Defined.

(** X20 at a 1 x 1 transparent image. *)
Lemma transparent_image_unchanged_witness :
  image_data 1 [1; 2; 3; 0]%Z
  ∧ convertToDmg (activePalette gray) [1; 2; 3; 0]%Z = Some [1; 2; 3; 0]%Z.
Proof.
  assert (Himg : image_data 1 [1; 2; 3; 0]%Z).
  { split; [reflexivity|]. repeat (constructor; [lia|]). constructor. }
  split; [exact Himg|].
  apply (transparent_image_unchanged gray 1 _ Himg).
  intros k r g b a Hp. destruct k as [|k].
  - by injection Hp as _ _ _ <-.
  - apply pixel_Some in Hp as (Hr & _). apply lookup_lt_Some in Hr.
    simpl in Hr. lia.
Defined.

(** X21 at the 3 x 1 image under the gray palette. *)
Lemma reconversion_witness :
  image_data 3 three_pixels
  ∧ ∃ out, convertToDmg (activePalette gray) three_pixels = Some out
           ∧ convertToDmg (activePalette gray) out = Some out.
Proof.
  split; [exact image_data_three_pixels|].
  destruct (quantize_recolors gray 3 three_pixels image_data_three_pixels)
    as (out & Hout & _).
  exists out. split; [exact Hout|].
  apply (proj1 (reconversion gray 3 three_pixels out image_data_three_pixels
                  Hout)).
  reflexivity.
Defined.

(** X22 at the archive [img/a.png], [img/b.png]. *)
Lemma archive_jobs_typed_witness :
  ∃ added,
    handleZip sample_loadAsync batch_zip init
    = Resolved (enqueueFiles (map item_file added) init)
    ∧ map item_name added = ["img/a.png"; "img/b.png"]
    ∧ Forall (λ it, item_ext it = "png"
                    ∧ file_name (item_file it) = item_name it
                    ∧ file_type (item_file it) = "image/png") added.
Proof.
  destruct (archive_jobs_typed sample_loadAsync batch_zip _ init
              (mkEntry "img/a.png" false [1]%Z)
              [mkEntry "img/b.png" false [2]%Z] eq_refl eq_refl eq_refl)
    as (added & H1 & _ & H2 & _ & H3).
  { intros e He. apply elem_of_cons in He as [->|He]; [reflexivity|].
    inversion He. }
  exists added. split; [exact H1|]. split; [exact H2|exact H3].
Defined.

(** X23 at the drop [photo.JPG], [batch.zip]: the two jobs of the archive
    come before the job of the photo. *)
Lemma handleFiles_archives_first_witness :
  map item_name
      (items (state_of (handleFiles sample_loadAsync [photo; batch_zip] init)))
  = ["img/a.png"; "img/b.png"; "photo.JPG"]
  ∧ ∃ st1 from_archives from_images,
      handleZips sample_loadAsync [batch_zip] init = Resolved st1
      ∧ items (state_of (handleFiles sample_loadAsync [photo; batch_zip] init))
        = (items init ++ from_archives ++ from_images)%list
      ∧ map item_file from_images = [photo].
Proof.
  split; [reflexivity|].
  destruct (handleFiles_archives_first sample_loadAsync [photo; batch_zip] init
              _ eq_refl)
    as (st1 & l1 & l2 & H1 & _ & H2 & H3).
  exists st1, l1, l2. split; [exact H1|]. split; [exact H2|exact H3].
Defined.
